(** * makefile_ci_patch.py: a line patcher for the official Julia Makefile

    A shallow embedding of [makefile_ci_patch.py] and the properties of its
    single pass over the lines of the input Makefile.

    Python [str] values are sequences of Unicode code points; they are
    modelled as lists of code points ([N]).  The two regular-expression
    calls of the script use one fixed pattern, whose matcher is written
    out; the replacement template of [re.sub] is expanded as the [re]
    module does (CPython 3.12). *)

From Stdlib Require Import String Ascii NArith ZArith Lia.
From stdpp Require Import base option list gmap.

Local Open Scope N_scope.

(** ** Python strings *)

Module PyStr.

Definition char := N.
Definition str := list char.

(** ASCII literal of the source as a [str]. *)
Definition lit (x : string) : str :=
  List.map N_of_ascii (list_ascii_of_string x).

Definition NL : char := 10.
Definition DQ : char := 34.
Definition SQ : char := 39.
Definition BACKSLASH : char := 92.

(** [str.isspace] on one character: the Unicode whitespace code points. *)
Definition isspace (c : char) : bool :=
  ((9 <=? c) && (c <=? 13)) || ((28 <=? c) && (c <=? 32))
  || (c =? 133) || (c =? 160) || (c =? 5760)
  || ((8192 <=? c) && (c <=? 8202))
  || (c =? 8232) || (c =? 8233) || (c =? 8239) || (c =? 8287) || (c =? 12288).

(** [s.startswith(p)] *)
Fixpoint startswith (p s : str) : bool :=
  match p, s with
  | [], _ => true
  | _ :: _, [] => false
  | a :: p', b :: s' => (a =? b) && startswith p' s'
  end.

(** [needle in hay] *)
Fixpoint contains (needle hay : str) : bool :=
  startswith needle hay ||
  match hay with
  | [] => false
  | _ :: t => contains needle t
  end.

Fixpoint lstrip (s : str) : str :=
  match s with
  | [] => []
  | c :: t => if isspace c then lstrip t else s
  end.

Definition rstrip (s : str) : str := rev (lstrip (rev s)).

(** [s.strip()] *)
Definition strip (s : str) : str := lstrip (rstrip s).

(** Longest prefix of characters other than the newline, and what follows. *)
Fixpoint span_line (s : str) : str * str :=
  match s with
  | [] => ([], [])
  | c :: t =>
      if c =? NL then ([], s)
      else let '(a, b) := span_line t in (c :: a, b)
  end.

End PyStr.
Export PyStr.

(** ** Exceptions and results *)

Inductive exception :=
| SystemExit (code : Z)
| FileNotFoundError
| IsADirectoryError
| PermissionError
| UnicodeDecodeError
| TemplateError.   (* re.error or IndexError raised for a replacement template *)

Inductive result (A : Type) :=
| Ok (a : A)
| Raise (e : exception).
Arguments Ok {A} a.
Arguments Raise {A} e.

#[global] Instance result_ret : MRet result := fun A a => Ok a.
#[global] Instance result_bind : MBind result := fun A B k r =>
  match r with
  | Ok a => k a
  | Raise e => Raise e
  end.

(** ** The regular expression of the script

    The pattern is the text [python -c ] followed by a capture group: one
    character that is neither a double quote nor a newline, then any run of
    characters other than a newline.  (The raw string of the source holds a
    backslash and a line break inside the first class; an escaped line break
    in a class is the newline character.) *)

Module Re.

Definition pyc_prefix : str := lit "python -c ".

(** Match of the pattern anchored at the start of [l]: group 1 and the text
    after the match.  The first class takes one character that is neither a
    double quote nor a newline; the starred class is greedy and nothing
    follows it, so it takes the whole run of characters up to a newline. *)
Definition match_at (l : str) : option (str * str) :=
  if startswith pyc_prefix l then
    match drop 10 l with
    | c :: r =>
        if (c =? DQ) || (c =? NL) then None
        else let '(g, rest) := span_line r in Some (c :: g, rest)
    | [] => None
    end
  else None.

(** [re.search(pattern, l)]: the leftmost match, as (text before the match,
    group 1, text after the match). *)
Fixpoint search (l : str) : option (str * str * str) :=
  match match_at l with
  | Some (g, rest) => Some ([], g, rest)
  | None =>
      match l with
      | [] => None
      | c :: t =>
          match search t with
          | Some (p, g, r) => Some (c :: p, g, r)
          | None => None
          end
      end
  end.

(** *** Replacement templates *)

Inductive titem :=
| TLit (c : char)
| TGroup (n : N).

Definition isdigit (c : char) : bool := (48 <=? c) && (c <=? 57).
Definition isoctdigit (c : char) : bool := (48 <=? c) && (c <=? 55).
Definition isasciiletter (c : char) : bool :=
  ((65 <=? c) && (c <=? 90)) || ((97 <=? c) && (c <=? 122)).
Definition digit (c : char) : N := c - 48.

(** [int(name)] for a string of ASCII digits; [None] when [name] is empty or
    has another character. *)
Fixpoint decimal (acc : N) (name : str) : option N :=
  match name with
  | [] => Some acc
  | c :: t => if isdigit c then decimal (10 * acc + digit c) t else None
  end.

Definition group_number (name : str) : option N :=
  match name with
  | [] => None
  | _ => decimal 0 name
  end.

(** The table [ESCAPES] of the template parser. *)
Definition escape (c : char) : option char :=
  if c =? 97 then Some 7          (* \a *)
  else if c =? 98 then Some 8     (* \b *)
  else if c =? 102 then Some 12   (* \f *)
  else if c =? 110 then Some 10   (* \n *)
  else if c =? 114 then Some 13   (* \r *)
  else if c =? 116 then Some 9    (* \t *)
  else if c =? 118 then Some 11   (* \v *)
  else if c =? BACKSLASH then Some BACKSLASH
  else None.

Fixpoint span_until_gt (s : str) : str * str :=
  match s with
  | [] => ([], [])
  | c :: t =>
      if c =? 62 then ([], s)
      else let '(a, b) := span_until_gt t in (c :: a, b)
  end.

Definition addgroup (groups index : N) (k : result (list titem))
  : result (list titem) :=
  if groups <? index then Raise TemplateError
  else r ← k; Ok (TGroup index :: r).

(** [parse_template]: the replacement string as literals and group
    references, for a pattern with [groups] capture groups.  [fuel] bounds
    the number of tokens. *)
Fixpoint parse_template_aux (fuel : nat) (groups : N) (src : str)
  : result (list titem) :=
  match fuel with
  | O => Ok []
  | S fuel =>
    let continue := parse_template_aux fuel groups in
    let literal c rest := r ← continue rest; Ok (TLit c :: r) in
    match src with
    | [] => Ok []
    | c :: rest =>
      if negb (c =? BACKSLASH) then literal c rest
      else
        match rest with
        | [] => Raise TemplateError              (* bad escape (end of pattern) *)
        | e :: rest =>
          if e =? 103 then                        (* \g<name> *)
            match rest with
            | lt :: rest =>
              if lt =? 60 then
                let '(name, rest) := span_until_gt rest in
                match rest, group_number name with
                | _ :: rest, Some index => addgroup groups index (continue rest)
                | _, _ => Raise TemplateError
                end
              else Raise TemplateError            (* missing < *)
            | [] => Raise TemplateError
            end
          else if e =? 48 then                    (* \0, \0o, \0oo *)
            match rest with
            | d1 :: rest1 =>
              if isoctdigit d1 then
                match rest1 with
                | d2 :: rest2 =>
                  if isoctdigit d2
                  then literal ((8 * digit d1 + digit d2) mod 256) rest2
                  else literal (digit d1) rest1
                | [] => literal (digit d1) rest1
                end
              else literal 0 rest
            | [] => literal 0 rest
            end
          else if isdigit e then                  (* \1 .. \99, \ooo *)
            match rest with
            | d1 :: rest1 =>
              if isdigit d1 then
                match rest1 with
                | d2 :: rest2 =>
                  if isoctdigit e && isoctdigit d1 && isoctdigit d2 then
                    let v := 64 * digit e + 8 * digit d1 + digit d2 in
                    if 255 <? v then Raise TemplateError
                    else literal v rest2
                  else addgroup groups (10 * digit e + digit d1) (continue rest1)
                | [] => addgroup groups (10 * digit e + digit d1) (continue rest1)
                end
              else addgroup groups (digit e) (continue rest)
            | [] => addgroup groups (digit e) (continue rest)
            end
          else
            match escape e with
            | Some x => literal x rest
            | None =>
              if isasciiletter e then Raise TemplateError   (* bad escape *)
              else r ← continue rest; Ok (TLit BACKSLASH :: TLit e :: r)
            end
        end
    end
  end.

Definition parse_template (groups : N) (src : str) : result (list titem) :=
  parse_template_aux (S (length src)) groups src.

(** Expansion of a parsed template for a match of a pattern without capture
    groups: group 0 is the matched text. *)
Definition expand_template (t : list titem) (matched : str) : str :=
  flat_map (fun i => match i with TLit c => [c] | TGroup _ => matched end) t.

(** [re.sub(pattern, repl, l)] for the pattern without capture group: every
    match, leftmost first and not overlapping, is replaced by the expansion
    of the template. *)
Fixpoint sub_aux (fuel : nat) (t : list titem) (l : str) : str :=
  match fuel with
  | O => l
  | S fuel =>
      match search l with
      | None => l
      | Some (before, g, rest) =>
          before ++ expand_template t (pyc_prefix ++ g) ++ sub_aux fuel t rest
      end
  end.

Definition sub (repl l : str) : result str :=
  t ← parse_template 0 repl; Ok (sub_aux (length l) t l).

End Re.

(** ** The scan over the lines *)

Module Patch.

Definition METACHARACTERS : str := lit "METACHARACTERS".
Definition endif : str := lit "endif".
Definition cowardly : str := lit "cowardly refusing to build".

(** The value of [quoted]: the f-string around [code]. *)
Definition quoted (code : str) : str :=
  lit "python -c " ++ [DQ] ++ code ++ [DQ].

(** The quoting fix of one line that reached the end of the loop body. *)
Definition fix_quoting (line : str) : result str :=
  let pyc_match := Re.search line in
  match pyc_match with
  | Some (_, group1, _) =>
      let code := strip group1 in
      if negb (startswith [DQ] code) && negb (startswith [SQ] code)
      then Re.sub (quoted code) line
      else Ok line
  | None => Ok line
  end.

(** The variables the loop updates: [inside_path_check] and [output_lines]. *)
Record state := State {
  inside_path_check : bool;
  output_lines : list str
}.

(** One iteration of the [for] loop. *)
Definition step (st : state) (line : str) : result state :=
  if contains METACHARACTERS line then
    Ok (State true (output_lines st))
  else if inside_path_check st then
    if startswith endif (strip line)
    then Ok (State false (output_lines st))
    else Ok st
  else if contains cowardly line then
    Ok st
  else
    line' ← fix_quoting line;
    Ok (State (inside_path_check st) (output_lines st ++ [line'])).

(** The [for] loop from a given state. *)
Fixpoint loop (st : state) (lines : list str) : result state :=
  match lines with
  | [] => Ok st
  | line :: rest => st' ← step st line; loop st' rest
  end.

(** The loop from the initial values of the two variables. *)
Definition patch_lines (lines : list str) : result (list str) :=
  st ← loop (State false []) lines; Ok (output_lines st).

End Patch.

(** ** Files, standard output and the program *)

Module IO.

(** What a path names.  The text of a regular file is its decoded content;
    [None] stands for bytes that are not valid UTF-8. *)
Inductive node :=
| Regular (readable writable : bool) (text : option str)
| Directory.

Inductive event :=
| OpenRead (path : str)
| ReadLines (path : str)
| OpenWrite (path : str)
| WriteLines (path : str)
| Close (path : str).

Record world := World {
  files : gmap str node;
  stdout : list str;
  trace : list event
}.

Definition M (A : Type) : Type := world -> result A * world.

#[global] Instance M_ret : MRet M := fun A a w => (Ok a, w).
#[global] Instance M_bind : MBind M := fun A B k m w =>
  match m w with
  | (Ok a, w') => k a w'
  | (Raise e, w') => (Raise e, w')
  end.

Definition raise {A} (e : exception) : M A := fun w => (Raise e, w).
Definition lift {A} (r : result A) : M A := fun w => (r, w).
Definition log (e : event) : M unit :=
  fun w => (Ok tt, World (files w) (stdout w) (trace w ++ [e])).
Definition print (line : str) : M unit :=
  fun w => (Ok tt, World (files w) (stdout w ++ [line]) (trace w)).
Definition lookup_node (path : str) : M (option node) :=
  fun w => (Ok (files w !! path), w).
Definition store (path : str) (n : node) : M unit :=
  fun w => (Ok tt, World (<[path := n]> (files w)) (stdout w) (trace w)).

(** The body of a [with] statement: the file is closed on the way out,
    also when the body raises. *)
Definition with_closing {A} (path : str) (body : M A) : M A :=
  fun w =>
    let '(r, w') := body w in
    (r, World (files w') (stdout w') (trace w' ++ [Close path])).

(** Text mode with universal newlines: a carriage return, alone or followed
    by a line feed, is read as one line feed. *)
Fixpoint universal_newlines (s : str) : str :=
  match s with
  | [] => []
  | c :: t =>
      if c =? 13 then
        NL :: match t with
              | d :: t' => if d =? NL then universal_newlines t'
                           else universal_newlines t
              | [] => []
              end
      else c :: universal_newlines t
  end.

(** The lines of a text, each with its line feed; the last one may lack it. *)
Fixpoint split_lines (s : str) : list str :=
  match s with
  | [] => []
  | c :: t =>
      if c =? NL then [c] :: split_lines t
      else match split_lines t with
           | [] => [[c]]
           | l :: ls => (c :: l) :: ls
           end
  end.

(** [open(path, "r", encoding="utf-8")] *)
Definition open_read (path : str) : M node :=
  n ← lookup_node path;
  match n with
  | None => raise FileNotFoundError
  | Some Directory => raise IsADirectoryError
  | Some (Regular false _ _) => raise PermissionError
  | Some (Regular true w t) => _ ← log (OpenRead path); mret (Regular true w t)
  end.

(** [f.readlines()] *)
Definition readlines (path : str) (n : node) : M (list str) :=
  match n with
  | Regular _ _ (Some text) =>
      _ ← log (ReadLines path);
      mret (split_lines (universal_newlines text))
  | _ => raise UnicodeDecodeError
  end.

(** [open(path, "w", encoding="utf-8")]: the file is created, or emptied
    when it exists. *)
Definition open_write (path : str) : M node :=
  n ← lookup_node path;
  match n with
  | Some Directory => raise IsADirectoryError
  | Some (Regular _ false _) => raise PermissionError
  | Some (Regular r true _) =>
      _ ← log (OpenWrite path);
      _ ← store path (Regular r true (Some []));
      mret (Regular r true (Some []))
  | None =>
      _ ← log (OpenWrite path);
      _ ← store path (Regular true true (Some []));
      mret (Regular true true (Some []))
  end.

(** [f.writelines(lines)] (line feeds are written as they are). *)
Definition writelines (path : str) (n : node) (lines : list str) : M unit :=
  match n with
  | Regular r w _ =>
      _ ← log (WriteLines path);
      store path (Regular r w (Some (concat lines)))
  | Directory => raise IsADirectoryError
  end.

Definition usage : str :=
  lit "Usage: python makefile_ci_patch.py <path_to_official_Makefile>".
Definition dst_path : str := lit "Makefile.ci".
Definition written : str := lit "Patched Makefile written to " ++ dst_path.

(** The script, run with [sys.argv = argv]. *)
Definition main (argv : list str) : M unit :=
  match argv with
  | [_; src_path] =>
      f ← open_read src_path;
      lines ← with_closing src_path (readlines src_path f);
      output_lines ← lift (Patch.patch_lines lines);
      f ← open_write dst_path;
      _ ← with_closing dst_path (writelines dst_path f output_lines);
      print written
  | _ =>
      _ ← print usage;
      raise (SystemExit 1)
  end.

(** A run from a file system, with nothing printed yet. *)
Definition run (argv : list str) (fs : gmap str node) : result unit * world :=
  main argv (World fs [] []).

(** The exit status of the process. *)
Definition exit_status (r : result unit) : Z :=
  match r with
  | Ok _ => 0%Z
  | Raise (SystemExit code) => code
  | Raise _ => 1%Z
  end.

(** The decoded text of the file at [path], if there is one. *)
Definition file_text (fs : gmap str node) (path : str) : option str :=
  match fs !! path with
  | Some (Regular _ _ t) => t
  | _ => None
  end.

End IO.


Import Patch IO.

(** * Vocabulary of the properties *)

(** The three tests of the loop body on a line. *)
Definition is_marker (line : str) : bool := contains METACHARACTERS line.
Definition is_terminator (line : str) : bool := startswith endif (strip line).
Definition is_error_line (line : str) : bool := contains cowardly line.

(** A line that none of the three rules touches. *)
Definition unrelated (line : str) : Prop :=
  is_marker line = false ∧ is_error_line line = false ∧ Re.search line = None.

(** The lines [m], [body] and [e] leave no trace in the output of
    [pre ++ m :: body ++ e :: post], and [post] is scanned from outside a
    guard block. *)
Definition guard_block_dropped (st : state) (pre : list str) (m : str)
    (body : list str) (e : str) (post : list str) : Prop :=
  loop st (pre ++ m :: body ++ e :: post) =
  (st' ← loop st pre; loop (State false (output_lines st')) post).

(** The property of the guard block with [e] the first later line whose
    trimmed text starts with [endif]. *)
Definition guard_block_claim (st : state) (pre : list str) (m : str)
    (body : list str) (e : str) (post : list str) : Prop :=
  is_marker m = true →
  Forall (λ l, is_terminator l = false) body →
  is_terminator e = true →
  guard_block_dropped st pre m body e post.

(** The text [readlines] can get from [src]. *)
Definition readable_text (fs : gmap str node) (src : str) : option str :=
  match fs !! src with
  | Some (Regular true _ (Some text)) => Some text
  | _ => None
  end.

(** The exception of a failed read of [src]. *)
Definition read_error (fs : gmap str node) (src : str) : exception :=
  match fs !! src with
  | None => FileNotFoundError
  | Some Directory => IsADirectoryError
  | Some (Regular false _ _) => PermissionError
  | Some (Regular true _ _) => UnicodeDecodeError
  end.

(** The events of a failed read of [src]. *)
Definition read_error_trace (fs : gmap str node) (src : str) : list event :=
  match fs !! src with
  | Some (Regular true _ _) => [OpenRead src; Close src]
  | _ => []
  end.

(** Whether [Makefile.ci] can be opened for writing, and the read permission
    the file has afterwards. *)
Definition dst_openable (fs : gmap str node) : option bool :=
  match fs !! dst_path with
  | None => Some true
  | Some (Regular r true _) => Some r
  | _ => None
  end.

(** The lines [readlines] returns for a decoded text. *)
Definition input_lines (text : str) : list str :=
  split_lines (universal_newlines text).

Definition CR : char := 13.

(** A line that ends with its line feed, and a last line without one. *)
Definition full_line (l : str) : Prop := ∃ body, l = body ++ [NL] ∧ NL ∉ body.
Definition partial_line (l : str) : Prop := l ≠ [] ∧ NL ∉ l.

(** What [readlines] returns: full lines, the last one possibly partial. *)
Fixpoint lines_ok (ls : list str) : Prop :=
  match ls with
  | [] => True
  | l :: rest =>
      match rest with
      | [] => full_line l ∨ partial_line l
      | _ :: _ => full_line l ∧ lines_ok rest
      end
  end.

(** The fragment of the example: a conditional, an error line with the
    marker, and the end of the conditional. *)
Definition ifneq_line : str := lit "ifneq (...)" ++ [NL].
Definition error_line : str := lit "  $(error METACHARACTERS found)" ++ [NL].
Definition endif_line : str := lit "endif" ++ [NL].
Definition fragment : str := ifneq_line ++ error_line ++ endif_line.

(** The three lines of the fragment are absent from the [Makefile.ci] that a
    run on [src] leaves. *)
Definition fragment_removed (prog src : str) (fs : gmap str node) : Prop :=
  ∃ text,
    file_text (files (run [prog; src] fs).2) dst_path = Some text ∧
    Forall (λ l, l ∉ input_lines text) [ifneq_line; error_line; endif_line].

(** The lines that reach the quoting fix, for a scan that starts inside
    ([inside = true]) or outside a guard block: the tests of the loop body
    without the output. *)
Fixpoint kept_lines (inside : bool) (lines : list str) : list str :=
  match lines with
  | [] => []
  | line :: rest =>
      if is_marker line then kept_lines true rest
      else if inside then kept_lines (negb (is_terminator line)) rest
      else if is_error_line line then kept_lines false rest
      else line :: kept_lines false rest
  end.

(** The exception of a failed [open(dst_path, "w")]. *)
Definition write_error (fs : gmap str node) : exception :=
  match fs !! dst_path with
  | Some Directory => IsADirectoryError
  | _ => PermissionError
  end.

(** A line in which every [python -c ] is followed by a double quote, by a
    line feed or by nothing. *)
Definition all_quoted (line : str) : Prop :=
  ∀ a b, line = a ++ Re.pyc_prefix ++ b →
         b = [] ∨ (∃ b', b = DQ :: b') ∨ (∃ b', b = NL :: b').

(** A line that a second pass leaves alone once the first has fixed it: the
    pattern does not match, or the stripped code starts with a quote, or it
    has neither a backslash nor a [python -c ] of its own. *)
Definition tame (line : str) : Prop :=
  match Re.search line with
  | None => True
  | Some (_, group1, _) =>
      let code := strip group1 in
      startswith [DQ] code = true ∨ startswith [SQ] code = true ∨
      ((BACKSLASH ∉ code) ∧ contains Re.pyc_prefix code = false)
  end.

(** Unfolding of a run down to the file operations. *)
Ltac run_unfold :=
  unfold run, main, open_read, open_write, readlines, writelines,
    with_closing, lookup_node, store, log, print, lift, raise,
    mbind, mret, M_bind, M_ret; simpl.

(** Case analysis of a membership [H] of an event in an explicit trace. *)
Ltac no_open_write H :=
  repeat (apply elem_of_cons in H as [H|H]; [try discriminate H|]);
  try (by apply elem_of_nil in H).

(** * Properties *)

(** ** Strings *)

Section StringFacts.

Implicit Types (s p : str) (c : char).

Lemma startswith_app p s : startswith p (p ++ s) = true.
Proof.
  induction p as [|a p IH]; simpl; [done|].
  by rewrite N.eqb_refl, IH.
Qed.

Lemma startswith_prefix p s : startswith p s = true → ∃ r, s = p ++ r.
Proof.
  revert s. induction p as [|a p IH]; intros s H; simpl in *.
  - by exists s.
  - destruct s as [|b s]; [done|].
    apply andb_true_iff in H as [Hab Hp]. apply N.eqb_eq in Hab as ->.
    destruct (IH _ Hp) as [r ->]. by exists r.
Qed.

Lemma contains_here needle hay :
  startswith needle hay = true → contains needle hay = true.
Proof. intros H. destruct hay; simpl; by rewrite H. Qed.

(** [contains] is the substring test. *)
Lemma contains_spec needle hay :
  contains needle hay = true ↔ ∃ a b, hay = a ++ needle ++ b.
Proof.
  split.
  - induction hay as [|c hay IH]; simpl; intros H.
    + rewrite orb_false_r in H. apply startswith_prefix in H as [r ->].
      by exists [], r.
    + apply orb_true_iff in H as [H|H].
      * apply startswith_prefix in H as [r ->]. by exists [], r.
      * destruct (IH H) as (a & b & ->). by exists (c :: a), b.
  - intros (a & b & ->). induction a as [|c a IH]; simpl.
    + apply contains_here, startswith_app.
    + rewrite IH. apply orb_true_r.
Qed.

Lemma span_line_app s :
  let '(a, b) := span_line s in s = a ++ b.
Proof.
  induction s as [|c s IH]; simpl; [done|].
  destruct (c =? NL); [done|].
  destruct (span_line s) as [a b]. simpl. by f_equal.
Qed.

End StringFacts.

(** ** The loop *)

Section LoopFacts.

Implicit Types (st : state) (line l : str) (lines : list str).

Lemma loop_app st lines1 lines2 :
  loop st (lines1 ++ lines2) = (st' ← loop st lines1; loop st' lines2).
Proof.
  revert st. induction lines1 as [|l lines1 IH]; intros st; simpl; [done|].
  destruct (step st l) as [st1|e]; simpl; [apply IH|done].
Qed.

Lemma step_marker st line :
  is_marker line = true → step st line = Ok (State true (output_lines st)).
Proof. unfold is_marker, step. by intros ->. Qed.

Lemma step_inside_skip st line :
  inside_path_check st = true → is_terminator line = false →
  step st line = Ok (State true (output_lines st)).
Proof.
  unfold is_terminator, step. intros Hin Ht.
  destruct (contains METACHARACTERS line); [done|].
  rewrite Hin, Ht. by destruct st; simpl in *; subst.
Qed.

Lemma step_terminator st line :
  inside_path_check st = true → is_marker line = false →
  is_terminator line = true →
  step st line = Ok (State false (output_lines st)).
Proof. unfold is_marker, is_terminator, step. by intros -> -> ->. Qed.

Lemma step_error_line st line :
  inside_path_check st = false → is_marker line = false →
  is_error_line line = true →
  step st line = Ok st.
Proof. unfold is_marker, is_error_line, step. by intros -> -> ->. Qed.

Lemma step_emit st line :
  inside_path_check st = false → is_marker line = false →
  is_error_line line = false →
  step st line =
    (line' ← fix_quoting line; Ok (State false (output_lines st ++ [line']))).
Proof. unfold is_marker, is_error_line, step. by intros -> -> ->. Qed.

(** Inside a guard block, lines that do not end it leave no trace. *)
Lemma loop_inside st lines :
  inside_path_check st = true →
  Forall (λ l, is_terminator l = true → is_marker l = true) lines →
  loop st lines = Ok st.
Proof.
  intros Hin Hall. induction Hall as [|l lines Hl _ IH]; simpl; [done|].
  assert (step st l = Ok st) as ->; [|exact IH].
  destruct (is_marker l) eqn:Hm.
  - rewrite step_marker by done. by destruct st; simpl in *; subst.
  - destruct (is_terminator l) eqn:Ht; [by specialize (Hl eq_refl)|].
    rewrite step_inside_skip by done. by destruct st; simpl in *; subst.
Qed.

Lemma step_unrelated st line :
  inside_path_check st = false → unrelated line →
  step st line = Ok (State false (output_lines st ++ [line])).
Proof.
  intros Hin (Hm & He & Hs). rewrite step_emit by done.
  unfold fix_quoting. by rewrite Hs.
Qed.

Lemma loop_unrelated st lines :
  inside_path_check st = false → Forall unrelated lines →
  loop st lines = Ok (State false (output_lines st ++ lines)).
Proof.
  intros Hin Hall. revert st Hin.
  induction Hall as [|l lines Hl _ IH]; intros st Hin; simpl.
  - rewrite app_nil_r. by destruct st; simpl in *; subst.
  - rewrite step_unrelated by done. simpl.
    rewrite IH by done. simpl. by rewrite <- app_assoc.
Qed.

End LoopFacts.

(** ** Runs of the script *)

Section RunFacts.

Implicit Types (fs : gmap str node) (src prog : str) (argv : list str).

Lemma run_usage argv fs :
  length argv ≠ 2%nat →
  run argv fs = (Raise (SystemExit 1), World fs [usage] []).
Proof.
  intros Hlen. destruct argv as [|a [|b [|c argv]]]; try done.
Qed.

Lemma run_read_error prog src fs :
  readable_text fs src = None →
  run [prog; src] fs =
    (Raise (read_error fs src), World fs [] (read_error_trace fs src)).
Proof.
  unfold readable_text, read_error, read_error_trace. intros H. run_unfold.
  destruct (fs !! src) as [[[] w [t|]|]|] eqn:E; simpl; done.
Qed.

Lemma run_patch_error prog src fs text e :
  readable_text fs src = Some text →
  patch_lines (input_lines text) = Raise e →
  run [prog; src] fs =
    (Raise e, World fs [] [OpenRead src; ReadLines src; Close src]).
Proof.
  unfold readable_text, input_lines. intros H He. run_unfold.
  destruct (fs !! src) as [[[] w [t|]|]|] eqn:E; simplify_eq; simpl.
  by rewrite He.
Qed.

Lemma run_write_error prog src fs text out :
  readable_text fs src = Some text →
  patch_lines (input_lines text) = Ok out →
  dst_openable fs = None →
  ∃ e, run [prog; src] fs =
    (Raise e, World fs [] [OpenRead src; ReadLines src; Close src]).
Proof.
  unfold readable_text, input_lines, dst_openable. intros H Ho Hd. run_unfold.
  destruct (fs !! src) as [[[] w [t|]|]|] eqn:E; simplify_eq; simpl.
  rewrite Ho.
  destruct (fs !! dst_path) as [[r [] t'|]|] eqn:E'; simplify_eq; simpl; eauto.
Qed.

Lemma run_ok prog src fs text out r :
  readable_text fs src = Some text →
  patch_lines (input_lines text) = Ok out →
  dst_openable fs = Some r →
  run [prog; src] fs =
    (Ok (),
     World (<[dst_path := Regular r true (Some (concat out))]> fs)
       [written]
       [OpenRead src; ReadLines src; Close src;
        OpenWrite dst_path; WriteLines dst_path; Close dst_path]).
Proof.
  unfold readable_text, input_lines, dst_openable. intros H Ho Hd. run_unfold.
  destruct (fs !! src) as [[[] w [t|]|]|] eqn:E; simplify_eq; simpl.
  rewrite Ho.
  destruct (fs !! dst_path) as [[r' [] t'|]|] eqn:E'; simplify_eq; simpl;
    by rewrite insert_insert_eq.
Qed.

Lemma file_text_insert fs path r w t :
  file_text (<[path := Regular r w t]> fs) path = t.
Proof. unfold file_text. by rewrite lookup_insert_eq. Qed.

End RunFacts.

(** ** The regular expression and the quoting fix *)

Section QuotingFacts.

Implicit Types (s l g line before rest code : str) (t : list Re.titem).

Lemma pyc_prefix_eq :
  Re.pyc_prefix = [112; 121; 116; 104; 111; 110; 32; 45; 99; 32].
Proof. reflexivity. Qed.

Lemma span_line_no_newline s : NL ∉ (span_line s).1.
Proof.
  induction s as [|c s IH]; simpl; [apply not_elem_of_nil|].
  destruct (c =? NL) eqn:E; simpl; [apply not_elem_of_nil|].
  destruct (span_line s) as [a b]. simpl in *.
  apply not_elem_of_cons. split; [|done].
  intros Heq. by rewrite <- Heq, N.eqb_refl in E.
Qed.

Lemma span_line_rest s :
  (span_line s).2 = [] ∨ (∃ r, (span_line s).2 = NL :: r).
Proof.
  induction s as [|c s IH]; simpl; [by left|].
  destruct (c =? NL) eqn:E; simpl.
  - apply N.eqb_eq in E as ->. right. by eexists.
  - by destruct (span_line s) as [a b].
Qed.

(** A match at the head of [l]: the text, the shape of group 1 and of what
    follows. *)
Lemma match_at_spec l g rest :
  Re.match_at l = Some (g, rest) →
  l = Re.pyc_prefix ++ g ++ rest ∧
  (∃ c g', g = c :: g' ∧ c ≠ DQ ∧ c ≠ NL) ∧
  (NL ∉ g) ∧
  (rest = [] ∨ (∃ r, rest = NL :: r)).
Proof.
  unfold Re.match_at. intros H.
  destruct (startswith Re.pyc_prefix l) eqn:Hp; [|done].
  apply startswith_prefix in Hp as [x ->].
  replace (drop 10 (Re.pyc_prefix ++ x)) with x in H by reflexivity.
  destruct x as [|c r]; [done|].
  destruct ((c =? DQ) || (c =? NL)) eqn:Hc; [done|].
  apply orb_false_iff in Hc as [Hdq Hnl].
  apply N.eqb_neq in Hdq, Hnl.
  pose proof (span_line_app r) as Happ.
  pose proof (span_line_no_newline r) as Hno.
  pose proof (span_line_rest r) as Hrest.
  destruct (span_line r) as [a b]. simpl in *. simplify_eq.
  split_and!; try done.
  - by eexists _, _.
  - apply not_elem_of_cons. done.
Qed.

Lemma search_spec l before g rest :
  Re.search l = Some (before, g, rest) →
  l = before ++ Re.pyc_prefix ++ g ++ rest ∧
  Re.match_at (Re.pyc_prefix ++ g ++ rest) = Some (g, rest).
Proof.
  revert before. induction l as [|c l IH]; intros before H.
  - by vm_compute in H.
  - simpl in H. destruct (Re.match_at (c :: l)) as [[g' r']|] eqn:E.
    + simplify_eq. pose proof E as E'. apply match_at_spec in E' as [Hl _].
      rewrite app_nil_l. split; [done|]. by rewrite <- Hl.
    + destruct (Re.search l) as [[[p g'] r']|] eqn:Es; [|done].
      simplify_eq. destruct (IH _ eq_refl) as [-> Hm]. done.
Qed.

Lemma search_shorter l before g rest :
  Re.search l = Some (before, g, rest) → (length rest < length l)%nat.
Proof.
  intros H. apply search_spec in H as [-> _].
  rewrite !length_app, pyc_prefix_eq. simpl. lia.
Qed.

(** The fuel of [sub_aux] does not matter once it covers the text. *)
Lemma sub_aux_fuel n m t l :
  (length l ≤ n)%nat → (length l ≤ m)%nat →
  Re.sub_aux n t l = Re.sub_aux m t l.
Proof.
  revert m l. induction n as [|n IH]; intros m l Hn Hm.
  - destruct l; [|simpl in Hn; lia]. by destruct m.
  - destruct m as [|m].
    + destruct l; [|simpl in Hm; lia]. done.
    + simpl. destruct (Re.search l) as [[[b g] r]|] eqn:E; [|done].
      apply search_shorter in E. do 2 f_equal. apply IH; lia.
Qed.

(** The equation of [re.sub] for a parsed template. *)
Lemma sub_aux_unfold t l :
  Re.sub_aux (length l) t l =
  match Re.search l with
  | None => l
  | Some (before, g, rest) =>
      before ++ Re.expand_template t (Re.pyc_prefix ++ g)
             ++ Re.sub_aux (length rest) t rest
  end.
Proof.
  destruct l as [|c l]; [done|].
  simpl length. cbn [Re.sub_aux].
  destruct (Re.search (c :: l)) as [[[b g] r]|] eqn:E; [|done].
  apply search_shorter in E. simpl in E.
  do 2 f_equal. apply sub_aux_fuel; lia.
Qed.

Lemma span_until_gt_length s :
  (length (Re.span_until_gt s).2 ≤ length s)%nat.
Proof.
  induction s as [|c s IH]; simpl; [done|].
  destruct (c =? 62); simpl; [done|].
  destruct (Re.span_until_gt s) as [a b]. simpl in *. lia.
Qed.

(** The fuel of the template parser does not matter once it covers the
    replacement string: [parse_template] never runs out of it. *)
Lemma parse_template_aux_fuel n m groups s :
  (length s < n)%nat → (length s < m)%nat →
  Re.parse_template_aux n groups s = Re.parse_template_aux m groups s.
Proof.
  revert m s. induction n as [|n IH]; intros m s Hn Hm; [lia|].
  destruct m as [|m]; [lia|].
  cbn [Re.parse_template_aux]. cbv zeta.
  repeat (case_match; try done);
    repeat match goal with
    | H : Re.span_until_gt ?x = (_, _) |- _ =>
        pose proof (span_until_gt_length x) as Hlen;
        rewrite H in Hlen; clear H
    end;
    subst; simpl in *; rewrite (IH m) by (simpl; lia); done.
Qed.

(** A replacement without backslash is taken as it is. *)
Lemma parse_template_literal n groups s :
  (BACKSLASH ∉ s) → (length s < n)%nat →
  Re.parse_template_aux n groups s = Ok (Re.TLit <$> s).
Proof.
  revert s. induction n as [|n IH]; intros s Hs Hn; [lia|].
  destruct s as [|c s]; [done|].
  apply not_elem_of_cons in Hs as [Hc Hs]. simpl in Hn.
  cbn [Re.parse_template_aux].
  assert ((c =? BACKSLASH) = false) as -> by (apply N.eqb_neq; congruence).
  simpl. rewrite IH by (done || lia). done.
Qed.

Lemma expand_template_literal s matched :
  Re.expand_template (Re.TLit <$> s) matched = s.
Proof. induction s as [|c s IH]; simpl; [done|]. by f_equal. Qed.

Lemma sub_literal repl l before g rest :
  BACKSLASH ∉ repl →
  Re.search l = Some (before, g, rest) →
  Re.search rest = None →
  Re.sub repl l = Ok (before ++ repl ++ rest).
Proof.
  intros Hb Hs Hr. unfold Re.sub, Re.parse_template.
  rewrite parse_template_literal by (done || lia). simpl.
  rewrite sub_aux_unfold, Hs, sub_aux_unfold, Hr.
  by rewrite expand_template_literal.
Qed.

(** The quoting fix on a line whose code has no backslash: the matched text
    is replaced by [python -c], a double quote, the stripped code and a
    double quote. *)
Lemma fix_quoting_wraps line before g rest :
  Re.search line = Some (before, g, rest) →
  Re.search rest = None →
  startswith [DQ] (strip g) = false →
  startswith [SQ] (strip g) = false →
  BACKSLASH ∉ strip g →
  fix_quoting line = Ok (before ++ quoted (strip g) ++ rest).
Proof.
  intros Hs Hr Hdq Hsq Hb. unfold fix_quoting. rewrite Hs, Hdq, Hsq.
  cbn [negb andb]. eapply sub_literal; [|done..].
  unfold quoted. rewrite !elem_of_app, !list_elem_of_singleton.
  intros [H|[H|[H|H]]]; try done.
  vm_compute in H. by repeat (apply elem_of_cons in H as [H|H]; [done|]);
    apply elem_of_nil in H.
Qed.

(** The quoting fix leaves a line alone when the pattern does not match or
    the stripped code starts with a quote. *)
Lemma fix_quoting_unchanged line :
  match Re.search line with
  | None => True
  | Some (_, g, _) =>
      startswith [DQ] (strip g) = true ∨ startswith [SQ] (strip g) = true
  end →
  fix_quoting line = Ok line.
Proof.
  unfold fix_quoting. destruct (Re.search line) as [[[b g] r]|]; [|done].
  intros [->| ->]; simpl; [done|]. by rewrite andb_false_r.
Qed.

End QuotingFacts.

Section StripFacts.

Implicit Types (s ws g : str).

Lemma lstrip_app_space ws s :
  Forall (λ c, isspace c = true) ws → lstrip (ws ++ s) = lstrip s.
Proof. induction 1 as [|c ws Hc _ IH]; simpl; [done|]. by rewrite Hc. Qed.

Lemma lstrip_head s c : head (lstrip s) = Some c → isspace c = false.
Proof.
  induction s as [|d s IH]; simpl; [done|].
  destruct (isspace d) eqn:E; [done|]. simpl. congruence.
Qed.

Lemma lstrip_suffix s : ∃ p, s = p ++ lstrip s.
Proof.
  induction s as [|d s [p IH]]; simpl; [by exists []|].
  destruct (isspace d).
  - exists (d :: p). simpl. by f_equal.
  - by exists [].
Qed.

(** Whitespace after the code does not reach [code]. *)
Lemma strip_app_space g ws :
  Forall (λ c, isspace c = true) ws → strip (g ++ ws) = strip g.
Proof.
  intros H. unfold strip, rstrip. rewrite rev_app_distr.
  rewrite lstrip_app_space; [done|]. by apply Forall_rev.
Qed.

(** [code] does not end with whitespace. *)
Lemma strip_last g c : last (strip g) = Some c → isspace c = false.
Proof.
  unfold strip, rstrip. intros H.
  destruct (lstrip_suffix (rev (lstrip (rev g)))) as [p Hp].
  destruct (lstrip (rev (lstrip (rev g)))) as [|x xs] eqn:E; [done|].
  assert (last (rev (lstrip (rev g))) = Some c) as Hl.
  { rewrite Hp, last_app_cons. by rewrite <- H. }
  destruct (lstrip (rev g)) as [|y ys] eqn:E'; [done|].
  simpl in Hl. rewrite last_snoc in Hl. simplify_eq.
  apply (lstrip_head (rev g)). by rewrite E'.
Qed.

End StripFacts.

(** The quoting fix on a line with whitespace after a code without backslash:
    the whitespace is neither inside nor after the quotes. *)
Lemma fix_quoting_trailing_space line before g ws rest :
  Re.search line = Some (before, g ++ ws, rest) →
  Re.search rest = None →
  Forall (λ c, isspace c = true) ws →
  startswith [DQ] (strip g) = false →
  startswith [SQ] (strip g) = false →
  BACKSLASH ∉ strip g →
  fix_quoting line = Ok (before ++ quoted (strip g) ++ rest).
Proof.
  intros Hs Hr Hws Hdq Hsq Hb.
  rewrite <- (strip_app_space g ws Hws) in *.
  by apply fix_quoting_wraps.
Qed.

(** Replacement templates, as [re.sub] expands them for this pattern: an
    octal escape, the whole match, a kept backslash, and two refused ones. *)
Example template_octal :
  Re.sub (lit "<\101\0>") (lit "python -c x") = Ok [60; 65; 0; 62].
Proof. reflexivity. Qed.

Example template_group_zero :
  Re.sub (lit "<\g<0>>") (lit "a python -c x" ++ [NL]) =
  Ok (lit "a <python -c x>" ++ [NL]).
Proof. reflexivity. Qed.

Example template_kept_backslash :
  Re.sub (lit "\.\\") (lit "python -c x") = Ok (lit "\.\").
Proof. reflexivity. Qed.

Example template_group_one :
  Re.sub (lit "\1") (lit "python -c x") = Raise TemplateError.
Proof. reflexivity. Qed.

Example template_end : Re.sub (lit "x\") (lit "python -c x") = Raise TemplateError.
Proof. reflexivity. Qed.

(** The example of the quoting fix. *)
Example fix_quoting_print :
  fix_quoting (lit "run: python -c print(1)" ++ [NL]) =
  Ok (lit "run: python -c " ++ [DQ] ++ lit "print(1)" ++ [DQ; NL]).
Proof. reflexivity. Qed.

Example fix_quoting_quoted :
  fix_quoting (lit "run: python -c 'print(1)'" ++ [NL]) =
  Ok (lit "run: python -c 'print(1)'" ++ [NL]).
Proof. reflexivity. Qed.

(** A code with an escape that the template parser refuses ends the script
    with an exception, before [Makefile.ci] is opened. *)
Example fix_quoting_bad_escape :
  fix_quoting (lit "run: python -c print(re.sub('\d', '', v))" ++ [NL]) =
  Raise TemplateError.
Proof. reflexivity. Qed.

(** ** Lines of a text *)

Section LineFacts.

Implicit Types (s l body : str) (ls pre post : list str).

Lemma full_line_cons c l : c ≠ NL → full_line l → full_line (c :: l).
Proof.
  intros Hc (body & -> & Hb). exists (c :: body). split; [done|].
  apply not_elem_of_cons. split; [congruence|done].
Qed.

Lemma partial_line_cons c l : c ≠ NL → NL ∉ l → partial_line (c :: l).
Proof.
  intros Hc Hl. split; [done|]. apply not_elem_of_cons. split; [congruence|done].
Qed.

Lemma split_lines_ok s : lines_ok (split_lines s).
Proof.
  induction s as [|c s IH]; simpl; [done|].
  destruct (c =? NL) eqn:E.
  - apply N.eqb_eq in E as ->.
    assert (full_line [NL]) as Hf by (exists []; split; [done|apply not_elem_of_nil]).
    simpl. destruct (split_lines s); [by left|done].
  - apply N.eqb_neq in E.
    destruct (split_lines s) as [|l ls].
    + right. apply partial_line_cons; [done|apply not_elem_of_nil].
    + simpl in *. destruct ls as [|l' ls].
      * destruct IH as [Hf|[_ Hp]]; [left; by apply full_line_cons|].
        right. by apply partial_line_cons.
      * destruct IH as [Hf Hok]. split; [by apply full_line_cons|done].
Qed.

Lemma concat_split_lines s : concat (split_lines s) = s.
Proof.
  induction s as [|c s IH]; simpl; [done|].
  destruct (c =? NL); simpl; [by rewrite IH|].
  destruct (split_lines s) as [|l ls]; simpl in *; by rewrite <- IH.
Qed.

Lemma split_lines_full body s :
  NL ∉ body → split_lines (body ++ NL :: s) = (body ++ [NL]) :: split_lines s.
Proof.
  induction body as [|c body IH]; intros Hb; simpl; [done|].
  apply not_elem_of_cons in Hb as [Hc Hb].
  assert ((c =? NL) = false) as -> by (apply N.eqb_neq; congruence).
  by rewrite IH.
Qed.

Lemma split_lines_partial l : partial_line l → split_lines l = [l].
Proof.
  intros [Hne Hl]. induction l as [|c l IH]; [done|]. simpl.
  apply not_elem_of_cons in Hl as [Hc Hl].
  assert ((c =? NL) = false) as -> by (apply N.eqb_neq; congruence).
  destruct l as [|d l]; [done|]. by rewrite IH.
Qed.

(** Reading back what [writelines] wrote gives the same lines. *)
Lemma split_lines_concat ls : lines_ok ls → split_lines (concat ls) = ls.
Proof.
  induction ls as [|l rest IH]; [done|]. simpl.
  destruct rest as [|l' rest].
  - simpl. rewrite app_nil_r. intros [(body & -> & Hb)|Hp].
    + by rewrite split_lines_full.
    + by apply split_lines_partial.
  - intros [(body & -> & Hb) Hok]. rewrite <- app_assoc. simpl app at 1.
    rewrite split_lines_full by done. f_equal. by apply IH.
Qed.

Lemma lines_ok_delete pre l post :
  lines_ok (pre ++ l :: post) → lines_ok (pre ++ post).
Proof.
  induction pre as [|p pre IH]; simpl.
  - destruct post; [done|]. by intros [_ ?].
  - destruct (pre ++ l :: post) eqn:E; [by destruct pre|].
    intros [Hf Hok]. destruct (pre ++ post) eqn:E'; [by left|].
    split; [done|]. by apply IH.
Qed.

Lemma lines_ok_elem ls l :
  lines_ok ls → l ∈ ls → full_line l ∨ partial_line l.
Proof.
  induction ls as [|l' rest IH]; intros Hok Hin; [by apply elem_of_nil in Hin|].
  apply elem_of_cons in Hin as [->|Hin]; simpl in Hok.
  - destruct rest; [done|]. left. apply Hok.
  - destruct rest as [|l'' rest]; [by apply elem_of_nil in Hin|].
    apply IH; [apply Hok|done].
Qed.

Lemma full_line_split body x r :
  NL ∉ body → x ++ NL :: r = body ++ [NL] → r = [].
Proof.
  revert x. induction body as [|c body IH]; intros x Hb H.
  - destruct x as [|d x]; [by simplify_eq|]. simpl in H.
    by destruct x; simplify_eq.
  - apply not_elem_of_cons in Hb as [Hc Hb].
    destruct x as [|d x]; simpl in H; simplify_eq.
    by eapply IH.
Qed.

(** On a line that [readlines] returned, the pattern matches up to the end
    of the line: at most the line feed is left after the match. *)
Lemma search_line_rest l before g rest :
  full_line l ∨ partial_line l →
  Re.search l = Some (before, g, rest) →
  (rest = [] ∨ rest = [NL]) ∧ Re.search rest = None.
Proof.
  intros Hl Hs. apply search_spec in Hs as [Heq Hm].
  apply match_at_spec in Hm as (_ & (c & g' & -> & _ & _) & Hg & Hrest).
  assert (rest = [] ∨ rest = [NL]) as Hr.
  { destruct Hrest as [->|[r ->]]; [by left|right].
    destruct Hl as [(body & -> & Hb)|[_ Hno]].
    - rewrite !app_assoc in Heq. symmetry in Heq.
      by rewrite (full_line_split _ _ _ Hb Heq).
    - exfalso. apply Hno. rewrite Heq, !elem_of_app. do 3 right.
      apply list_elem_of_here. }
  split; [done|]. by destruct Hr as [->| ->].
Qed.

Lemma universal_newlines_no_cr s : CR ∉ universal_newlines s.
Proof.
  assert (∀ s, (CR ∉ universal_newlines s) ∧
               (∀ c, CR ∉ universal_newlines (c :: s))) as H; [|apply H].
  clear s. intros s. unfold CR. induction s as [|d s [IH1 IH2]].
  - split; [apply not_elem_of_nil|]. intros c. simpl.
    destruct (c =? 13) eqn:E.
    + by apply not_elem_of_cons; split; [|apply not_elem_of_nil].
    + apply N.eqb_neq in E.
      apply not_elem_of_cons; split; [congruence|apply not_elem_of_nil].
  - split; [apply IH2|]. intros c.
    change (universal_newlines (c :: d :: s)) with
      (if c =? 13 then
         NL :: (if d =? NL then universal_newlines s
                else universal_newlines (d :: s))
       else c :: universal_newlines (d :: s)).
    destruct (c =? 13) eqn:E.
    + apply not_elem_of_cons; split; [done|].
      destruct (d =? NL); [done|apply IH2].
    + apply N.eqb_neq in E. apply not_elem_of_cons; split; [congruence|apply IH2].
Qed.

Lemma universal_newlines_id s : CR ∉ s → universal_newlines s = s.
Proof.
  induction s as [|c s IH]; [done|]. intros H.
  apply not_elem_of_cons in H as [Hc Hs]. simpl. unfold CR in Hc.
  assert ((c =? 13) = false) as -> by (apply N.eqb_neq; congruence).
  by rewrite IH.
Qed.

(** Dropping one of the lines read from a text and writing the others gives
    a text with exactly these lines. *)
Lemma input_lines_delete text pre l post :
  input_lines text = pre ++ l :: post →
  input_lines (concat (pre ++ post)) = pre ++ post.
Proof.
  unfold input_lines. intros H.
  pose proof (universal_newlines_no_cr text) as Hcr.
  pose proof (split_lines_ok (universal_newlines text)) as Hok.
  rewrite <- (concat_split_lines (universal_newlines text)) in Hcr.
  rewrite H in Hcr, Hok.
  rewrite universal_newlines_id.
  - apply split_lines_concat. by eapply lines_ok_delete.
  - intros Hin. apply Hcr. rewrite concat_app in *. simpl.
    rewrite !elem_of_app in *. tauto.
Qed.

End LineFacts.

(** The quoting fix on a line that [readlines] returned, for a code without
    backslash: the text from [python -c] to the end of the line is replaced
    by [python -c] and the stripped code in double quotes; the line feed, if
    any, stays. *)
Lemma fix_quoting_line l before g rest :
  full_line l ∨ partial_line l →
  Re.search l = Some (before, g, rest) →
  startswith [DQ] (strip g) = false →
  startswith [SQ] (strip g) = false →
  BACKSLASH ∉ strip g →
  fix_quoting l = Ok (before ++ quoted (strip g) ++ rest) ∧
  (rest = [] ∨ rest = [NL]) ∧
  (∀ c, last (strip g) = Some c → isspace c = false).
Proof.
  intros Hl Hs Hdq Hsq Hb.
  destruct (search_line_rest _ _ _ _ Hl Hs) as [Hr Hnone].
  split_and!; [by apply fix_quoting_wraps|done|apply strip_last].
Qed.

(** ** Whole runs *)

(** A run on a readable input, with [Makefile.ci] open to writing. *)
Lemma run_readable prog src fs text r :
  readable_text fs src = Some text →
  dst_openable fs = Some r →
  run [prog; src] fs =
  match patch_lines (input_lines text) with
  | Ok out =>
      (Ok (),
       World (<[dst_path := Regular r true (Some (concat out))]> fs)
         [written]
         [OpenRead src; ReadLines src; Close src;
          OpenWrite dst_path; WriteLines dst_path; Close dst_path])
  | Raise e =>
      (Raise e, World fs [] [OpenRead src; ReadLines src; Close src])
  end.
Proof.
  intros Hr Hd. destruct (patch_lines (input_lines text)) as [out|e] eqn:Hp.
  - exact (run_ok _ _ _ _ _ _ Hr Hp Hd).
  - exact (run_patch_error _ _ _ _ _ Hr Hp).
Qed.

(** [Makefile.ci] is opened for writing only in a run that has read the
    whole input and closed it. *)
Lemma open_write_after_read prog src fs p :
  OpenWrite p ∈ trace (run [prog; src] fs).2 →
  is_Some (readable_text fs src) ∧
  ∃ after, trace (run [prog; src] fs).2 =
           [OpenRead src; ReadLines src; Close src; OpenWrite p] ++ after.
Proof.
  destruct (readable_text fs src) as [text|] eqn:Hr.
  - destruct (patch_lines (input_lines text)) as [out|e] eqn:Hp.
    + destruct (dst_openable fs) as [r|] eqn:Hd.
      * rewrite (run_ok _ _ _ _ _ _ Hr Hp Hd). simpl. intros Hin.
        split; [done|]. no_open_write Hin.
        injection Hin as ->. eauto.
      * destruct (run_write_error prog _ _ _ _ Hr Hp Hd) as [e ->].
        simpl. intros Hin. no_open_write Hin.
    + rewrite (run_patch_error _ _ _ _ _ Hr Hp). simpl.
      intros Hin. no_open_write Hin.
  - rewrite run_read_error by done. unfold read_error_trace. simpl.
    intros Hin. destruct (fs !! src) as [[[] ? ?|]|]; no_open_write Hin.
Qed.

(** An error line met outside a guard block, and that does not start one,
    changes nothing: the scan goes on as if the line were not there. *)
Lemma loop_error_line st st' pre l post :
  loop st pre = Ok st' →
  inside_path_check st' = false →
  is_error_line l = true → is_marker l = false →
  loop st (pre ++ l :: post) = loop st (pre ++ post).
Proof.
  intros Hpre Hin He Hm. rewrite !loop_app, Hpre. simpl.
  by rewrite step_error_line.
Qed.

(** * Claims *)

(** ** Guard blocks *)

(** C1, as stated, fails: after a marker line, a line [endif # METACHARACTERS]
    is the first line whose trimmed text starts with [endif], yet the line
    after it is not scanned normally: it is dropped. *)
Lemma guard_block_claim_fails :
  ¬ guard_block_claim (State false []) []
      (lit "METACHARACTERS := x" ++ [NL]) []
      (lit "endif # METACHARACTERS" ++ [NL])
      [lit "all: build" ++ [NL]].
Proof.
  intros H. specialize (H eq_refl (List.Forall_nil _) eq_refl).
  vm_compute in H. discriminate H.
Qed.

(** C1 (amended): a line containing METACHARACTERS, every line after it up to
    and including the first later line whose trimmed text starts with [endif],
    when that line does not itself contain METACHARACTERS, are absent from the
    output, and the lines after it are scanned from outside a guard block. *)
Theorem guard_block_removed st pre m body e post :
  is_marker m = true →
  Forall (λ l, is_terminator l = false) body →
  is_terminator e = true →
  is_marker e = false →
  guard_block_dropped st pre m body e post.
Proof.
  intros Hm Hbody He Hne. unfold guard_block_dropped.
  rewrite loop_app. destruct (loop st pre) as [st'|x]; simpl; [|done].
  rewrite step_marker by done. simpl.
  rewrite loop_app, loop_inside; simpl.
  - by rewrite step_terminator.
  - done.
  - eapply Forall_impl; [exact Hbody|]. simpl. congruence.
Qed.

Lemma guard_block_removed_witness :
  guard_block_dropped (State false [])
    [lit "all: build" ++ [NL]]
    (lit "METACHARACTERS := x" ++ [NL])
    [lit "ifneq (a,b)" ++ [NL]; lit "$(error bad path)" ++ [NL]]
    (lit "endif" ++ [NL])
    [lit "clean:" ++ [NL]].
Proof.
  apply guard_block_removed.
  - reflexivity.
  - repeat constructor.
  - reflexivity.
  - reflexivity.
Defined.

(** C2, as stated, fails: the [ifneq] line comes before the line with the
    marker and is written to [Makefile.ci]. *)
Lemma fragment_removed_fails :
  ¬ fragment_removed (lit "makefile_ci_patch.py") (lit "Makefile")
      {[ lit "Makefile" := Regular true true (Some fragment) ]}.
Proof.
  intros (text & Htext & Hall).
  vm_compute in Htext. injection Htext as <-.
  apply Forall_cons in Hall as [Hno _]. apply Hno.
  vm_compute. apply list_elem_of_here.
Qed.

(** C2 (amended): for the three-line fragment, the line with the marker and
    the [endif] line are absent from [Makefile.ci]; the [ifneq] line, which
    comes before the marker, is written unchanged and is the whole output. *)
Theorem fragment_output prog src fs :
  readable_text fs src = Some fragment →
  is_Some (dst_openable fs) →
  input_lines fragment = [ifneq_line; error_line; endif_line] ∧
  patch_lines (input_lines fragment) = Ok [ifneq_line] ∧
  (run [prog; src] fs).1 = Ok () ∧
  file_text (files (run [prog; src] fs).2) dst_path = Some ifneq_line ∧
  (error_line ∉ input_lines ifneq_line) ∧ (endif_line ∉ input_lines ifneq_line).
Proof.
  intros Hr [r Hd]. rewrite (run_readable _ _ _ _ _ Hr Hd).
  assert (patch_lines (input_lines fragment) = Ok [ifneq_line]) as ->
    by reflexivity.
  split_and!; try reflexivity.
  - simpl. rewrite file_text_insert. reflexivity.
  - intros H. vm_compute in H. apply list_elem_of_singleton in H. discriminate H.
  - intros H. vm_compute in H. apply list_elem_of_singleton in H. discriminate H.
Qed.

Lemma fragment_output_witness :
  let fs : gmap str node :=
    {[ lit "Makefile" := Regular true true (Some fragment) ]} in
  let prog := lit "makefile_ci_patch.py" in
  readable_text fs (lit "Makefile") = Some fragment ∧
  is_Some (dst_openable fs) ∧
  file_text (files (run [prog; lit "Makefile"] fs).2) dst_path = Some ifneq_line.
Proof.
  assert (readable_text
            ({[ lit "Makefile" := Regular true true (Some fragment) ]})
            (lit "Makefile") = Some fragment) as Hr
    by (vm_compute; reflexivity).
  assert (is_Some (dst_openable
            ({[ lit "Makefile" := Regular true true (Some fragment) ]})))
    as Hd by (exists true; vm_compute; reflexivity).
  split; [exact Hr|]. split; [exact Hd|].
  exact (proj1 (proj2 (proj2 (proj2
    (fragment_output (lit "makefile_ci_patch.py") (lit "Makefile") _ Hr Hd))))).
Defined.

(** C8: when no line after a line with the marker has a trimmed text that
    starts with [endif], the output is the output of the lines before the
    marker line, and the script writes it and ends with status 0. *)
Theorem unterminated_guard_block prog src fs text pre m rest out :
  readable_text fs src = Some text →
  is_Some (dst_openable fs) →
  input_lines text = pre ++ m :: rest →
  is_marker m = true →
  Forall (λ l, is_terminator l = false) rest →
  patch_lines pre = Ok out →
  patch_lines (pre ++ m :: rest) = Ok out ∧
  (run [prog; src] fs).1 = Ok () ∧
  exit_status (run [prog; src] fs).1 = 0%Z ∧
  file_text (files (run [prog; src] fs).2) dst_path = Some (concat out) ∧
  stdout (run [prog; src] fs).2 = [written].
Proof.
  intros Hr [r Hd] Hlines Hm Hrest Hpre.
  assert (patch_lines (pre ++ m :: rest) = Ok out) as Hout.
  { unfold patch_lines in *. rewrite loop_app.
    destruct (loop (State false []) pre) as [st'|e]; simpl in *; [|done].
    rewrite step_marker by done. simpl.
    rewrite loop_inside; [done..|].
    eapply Forall_impl; [exact Hrest|]. simpl. congruence. }
  rewrite (run_readable _ _ _ _ _ Hr Hd), Hlines, Hout. simpl.
  by rewrite file_text_insert.
Qed.

Lemma unterminated_guard_block_witness :
  let text := lit "all: build" ++ [NL] ++ lit "METACHARACTERS := x" ++ [NL]
              ++ lit "ifneq (a,b)" ++ [NL] ++ lit "clean:" in
  let fs : gmap str node :=
    {[ lit "Makefile" := Regular true true (Some text) ]} in
  let prog := lit "makefile_ci_patch.py" in
  exit_status (run [prog; lit "Makefile"] fs).1 = 0%Z ∧
  file_text (files (run [prog; lit "Makefile"] fs).2) dst_path =
    Some (lit "all: build" ++ [NL]).
Proof.
  pose proof (unterminated_guard_block
    (lit "makefile_ci_patch.py") (lit "Makefile")
    {[ lit "Makefile" := Regular true true
         (Some (lit "all: build" ++ [NL] ++ lit "METACHARACTERS := x" ++ [NL]
                ++ lit "ifneq (a,b)" ++ [NL] ++ lit "clean:")) ]}
    (lit "all: build" ++ [NL] ++ lit "METACHARACTERS := x" ++ [NL]
                ++ lit "ifneq (a,b)" ++ [NL] ++ lit "clean:")
    [lit "all: build" ++ [NL]]
    (lit "METACHARACTERS := x" ++ [NL])
    [lit "ifneq (a,b)" ++ [NL]; lit "clean:"]
    [lit "all: build" ++ [NL]]) as H.
  destruct H as (_ & _ & H1 & H2 & _).
  - vm_compute; reflexivity.
  - exists true. vm_compute; reflexivity.
  - vm_compute; reflexivity.
  - vm_compute; reflexivity.
  - repeat constructor.
  - vm_compute; reflexivity.
  - split; [exact H1|exact H2].
Defined.

(** C9: the test for METACHARACTERS comes first on every line.  A line that
    contains it is dropped and leaves the scan inside a guard block, whatever
    the state before; when its trimmed text also starts with [endif] and a
    guard block is open, the block stays open. *)
Theorem marker_test_comes_first st line :
  is_marker line = true →
  step st line = Ok (State true (output_lines st)) ∧
  (is_terminator line = true → inside_path_check st = true →
   step st line = Ok st).
Proof.
  intros Hm. rewrite step_marker by done. split; [done|].
  intros _ Hin. by destruct st; simpl in *; subst.
Qed.

Lemma marker_test_comes_first_witness :
  let line := lit "endif # METACHARACTERS" ++ [NL] in
  let st := State true [lit "all:" ++ [NL]] in
  is_terminator line = true ∧ step st line = Ok st.
Proof.
  split; [reflexivity|].
  apply (marker_test_comes_first
           (State true [lit "all:" ++ [NL]])
           (lit "endif # METACHARACTERS" ++ [NL])); reflexivity.
Defined.

(** ** The quoting fix *)

(** C3: the rewrite passes [quoted] to [re.sub] as a replacement template, so
    a backslash escape in the code is expanded.  On the line
    [run: python -c print('a\nb')] the code does not start with a quote, and
    the output line is not the code in double quotes: backslash and [n] have
    become a line feed. *)
Theorem quoting_expands_escapes :
  let line := lit "run: python -c print('a\nb')" ++ [NL] in
  let code := lit "print('a\nb')" in
  Re.search line = Some (lit "run: ", code, [NL]) ∧
  strip code = code ∧
  startswith [DQ] code = false ∧ startswith [SQ] code = false ∧
  fix_quoting line =
    Ok (lit "run: python -c " ++ [DQ] ++ lit "print('a" ++ [NL]
        ++ lit "b')" ++ [DQ; NL]) ∧
  fix_quoting line ≠ Ok (lit "run: " ++ quoted code ++ [NL]).
Proof. vm_compute. split_and!; try reflexivity. discriminate. Qed.

(** C10: the code is stripped before the f-string is built, but the f-string
    is then read as a replacement template.  On the line
    [run: python -c \g<0>] followed by two spaces, the group reference stands
    for the whole matched text, and the two spaces are inside the quotes of
    the rewritten line. *)
Theorem quoting_keeps_trailing_spaces :
  let line := lit "run: python -c \g<0>  " ++ [NL] in
  Re.search line = Some (lit "run: ", lit "\g<0>  ", [NL]) ∧
  strip (lit "\g<0>  ") = lit "\g<0>" ∧
  fix_quoting line =
    Ok (lit "run: python -c " ++ [DQ] ++ lit "python -c \g<0>  " ++ [DQ; NL]) ∧
  fix_quoting line ≠ Ok (lit "run: " ++ quoted (lit "\g<0>") ++ [NL]).
Proof. vm_compute. split_and!; try reflexivity. discriminate. Qed.

(** ** Error lines *)

(** C4: a line that contains [cowardly refusing to build] is never appended
    to the output.  When it is met outside a guard block and does not start
    one, the scan goes on as if the line were not there: the output is the
    one of the input without that line.  When the other lines are unrelated
    to the three rules, they are written unchanged and in order, and the file
    written has exactly one line fewer than the file read. *)
Theorem error_line_removed prog src fs text pre l post :
  readable_text fs src = Some text →
  is_Some (dst_openable fs) →
  input_lines text = pre ++ l :: post →
  is_error_line l = true → is_marker l = false →
  (∀ st, ∃ st', step st l = Ok st' ∧ output_lines st' = output_lines st) ∧
  (∀ st', loop (State false []) pre = Ok st' →
          inside_path_check st' = false →
          patch_lines (pre ++ l :: post) = patch_lines (pre ++ post)) ∧
  (Forall unrelated pre → Forall unrelated post →
   let text' := concat (pre ++ post) in
   patch_lines (pre ++ l :: post) = Ok (pre ++ post) ∧
   file_text (files (run [prog; src] fs).2) dst_path = Some text' ∧
   input_lines text' = pre ++ post ∧
   (length (input_lines text') + 1 = length (input_lines text))%nat).
Proof.
  intros Hr [r Hd] Hlines He Hm. split_and!.
  - intros st. destruct (inside_path_check st) eqn:Hin.
    + destruct (is_terminator l) eqn:Ht.
      * rewrite step_terminator by done. by eexists.
      * rewrite step_inside_skip by done. by eexists.
    + rewrite step_error_line by done. by eexists.
  - intros st' Hpre Hin. unfold patch_lines.
    by rewrite (loop_error_line _ _ _ _ _ Hpre Hin He Hm).
  - intros Hpre Hpost.
    assert (patch_lines (pre ++ l :: post) = Ok (pre ++ post)) as Hout.
    { unfold patch_lines. rewrite loop_app, loop_unrelated by done. simpl.
      rewrite step_error_line by done. simpl.
      rewrite loop_unrelated by done. done. }
    split; [done|].
    rewrite (run_readable _ _ _ _ _ Hr Hd), Hlines, Hout. simpl.
    rewrite file_text_insert, (input_lines_delete _ _ _ _ Hlines).
    split_and!; try done. rewrite !length_app. simpl. lia.
Qed.

Lemma error_line_removed_witness :
  let text := lit "all: build" ++ [NL]
              ++ lit "$(error cowardly refusing to build here)" ++ [NL]
              ++ lit "clean:" ++ [NL] in
  let fs : gmap str node :=
    {[ lit "Makefile" := Regular true true (Some text) ]} in
  file_text (files (run [lit "makefile_ci_patch.py"; lit "Makefile"] fs).2)
    dst_path = Some (lit "all: build" ++ [NL] ++ lit "clean:" ++ [NL]).
Proof.
  pose proof (error_line_removed
    (lit "makefile_ci_patch.py") (lit "Makefile")
    {[ lit "Makefile" := Regular true true
         (Some (lit "all: build" ++ [NL]
                ++ lit "$(error cowardly refusing to build here)" ++ [NL]
                ++ lit "clean:" ++ [NL])) ]}
    (lit "all: build" ++ [NL]
                ++ lit "$(error cowardly refusing to build here)" ++ [NL]
                ++ lit "clean:" ++ [NL])
    [lit "all: build" ++ [NL]]
    (lit "$(error cowardly refusing to build here)" ++ [NL])
    [lit "clean:" ++ [NL]]) as H.
  cbv zeta. destruct H as (_ & _ & H).
  - vm_compute; reflexivity.
  - exists true. vm_compute; reflexivity.
  - vm_compute; reflexivity.
  - vm_compute; reflexivity.
  - vm_compute; reflexivity.
  - destruct H as (_ & Ht & _).
    + repeat constructor.
    + repeat constructor.
    + exact Ht.
Defined.

(** ** Arguments and files *)

(** C5: with no argument or with two or more arguments, the script prints the
    usage message, exits with status 1 and touches no file. *)
Theorem wrong_argument_count prog args fs :
  length args = 0%nat ∨ (2 ≤ length args)%nat →
  let '(r, w) := run (prog :: args) fs in
  r = Raise (SystemExit 1) ∧ exit_status r ≠ 0%Z ∧
  stdout w = [usage] ∧ files w = fs ∧ trace w = [].
Proof.
  intros Hlen. rewrite run_usage; [done|]. simpl. lia.
Qed.

Lemma wrong_argument_count_witness :
  let '(r, w) := run [lit "makefile_ci_patch.py"; lit "Makefile"; lit "extra"] ∅ in
  r = Raise (SystemExit 1) ∧ exit_status r ≠ 0%Z ∧
  stdout w = [usage] ∧ files w = ∅ ∧ trace w = [].
Proof.
  apply (wrong_argument_count (lit "makefile_ci_patch.py")
           [lit "Makefile"; lit "extra"] ∅).
  right. simpl. lia.
Defined.

(** C7: when the input cannot be read (no such file, no permission, a
    directory, or bytes that do not decode), the script ends with the error
    of the read, exit status 1, and the files are as before.  In every run,
    [Makefile.ci] is opened for writing only after the input has been read to
    its end and closed. *)
Theorem unreadable_input_writes_nothing prog src fs :
  (readable_text fs src = None →
   let '(r, w) := run [prog; src] fs in
   r = Raise (read_error fs src) ∧ exit_status r = 1%Z ∧
   files w = fs ∧ stdout w = [] ∧ ∀ p, OpenWrite p ∉ trace w) ∧
  (∀ p, OpenWrite p ∈ trace (run [prog; src] fs).2 →
   is_Some (readable_text fs src) ∧
   ∃ after, trace (run [prog; src] fs).2 =
            [OpenRead src; ReadLines src; Close src; OpenWrite p] ++ after).
Proof.
  split; [|apply open_write_after_read].
  intros Hr. rewrite run_read_error by done.
  split_and!; try done.
  - unfold read_error. by destruct (fs !! src) as [[[] ? ?|]|].
  - intros p Hin. simpl in Hin. unfold read_error_trace in Hin.
    destruct (fs !! src) as [[[] ? ?|]|]; no_open_write Hin.
Qed.

Lemma unreadable_input_writes_nothing_witness :
  readable_text ∅ (lit "Makefile") = None ∧
  let '(r, w) := run [lit "makefile_ci_patch.py"; lit "Makefile"] ∅ in
  r = Raise (read_error ∅ (lit "Makefile")) ∧ exit_status r = 1%Z ∧
  files w = ∅ ∧ stdout w = [] ∧ ∀ p, OpenWrite p ∉ trace w.
Proof.
  split; [vm_compute; reflexivity|].
  apply (proj1 (unreadable_input_writes_nothing
                  (lit "makefile_ci_patch.py") (lit "Makefile") ∅)).
  vm_compute; reflexivity.
Defined.

(** ** Determinism *)

(** C6: two runs on the same input text give the same result, whatever else
    the file system holds, [Makefile.ci] included: the same exception or
    success, the same printed lines, the same file operations and, on
    success, the same text in [Makefile.ci]; a run that fails leaves the
    files as they were. *)
Theorem same_input_same_output prog src fs1 fs2 text :
  readable_text fs1 src = Some text →
  readable_text fs2 src = Some text →
  is_Some (dst_openable fs1) →
  is_Some (dst_openable fs2) →
  let '(r1, w1) := run [prog; src] fs1 in
  let '(r2, w2) := run [prog; src] fs2 in
  r1 = r2 ∧ stdout w1 = stdout w2 ∧ trace w1 = trace w2 ∧
  match r1 with
  | Ok _ =>
      is_Some (file_text (files w1) dst_path) ∧
      file_text (files w1) dst_path = file_text (files w2) dst_path
  | Raise _ => files w1 = fs1 ∧ files w2 = fs2
  end.
Proof.
  intros H1 H2 [r1 Hd1] [r2 Hd2].
  rewrite (run_readable _ _ _ _ _ H1 Hd1), (run_readable _ _ _ _ _ H2 Hd2).
  destruct (patch_lines (input_lines text)) as [out|e]; simpl; [|done].
  rewrite !file_text_insert. done.
Qed.

Lemma same_input_same_output_witness :
  let text := lit "run: python -c print(1)" ++ [NL] in
  let fs1 : gmap str node :=
    {[ lit "Makefile" := Regular true true (Some text) ]} in
  let fs2 : gmap str node :=
    <[ dst_path := Regular false true (Some (lit "old")) ]> fs1 in
  let prog := lit "makefile_ci_patch.py" in
  file_text (files (run [prog; lit "Makefile"] fs1).2) dst_path =
  file_text (files (run [prog; lit "Makefile"] fs2).2) dst_path.
Proof.
  pose proof (same_input_same_output
    (lit "makefile_ci_patch.py") (lit "Makefile")
    {[ lit "Makefile" := Regular true true
         (Some (lit "run: python -c print(1)" ++ [NL])) ]}
    (<[ dst_path := Regular false true (Some (lit "old")) ]>
       {[ lit "Makefile" := Regular true true
            (Some (lit "run: python -c print(1)" ++ [NL])) ]})
    (lit "run: python -c print(1)" ++ [NL])) as H.
  cbv zeta.
  destruct (run _ {[ _ := _ ]}) as [r1 w1] eqn:E1.
  destruct (run _ (<[ _ := _ ]> _)) as [r2 w2] eqn:E2.
  destruct H as (Hr & _ & _ & H).
  - vm_compute; reflexivity.
  - vm_compute; reflexivity.
  - exists true. vm_compute; reflexivity.
  - exists false. vm_compute; reflexivity.
  - assert (r1 = Ok ()) as -> by (vm_compute in E1; congruence).
    simpl. apply H.
Defined.

(** Running the script again on an input other than [Makefile.ci] writes the
    same text again. *)
Lemma second_run_same_output prog src fs text :
  src ≠ dst_path →
  readable_text fs src = Some text →
  is_Some (dst_openable fs) →
  let '(r1, w1) := run [prog; src] fs in
  let '(r2, w2) := run [prog; src] (files w1) in
  r1 = r2 ∧
  file_text (files w2) dst_path = file_text (files w1) dst_path.
Proof.
  intros Hne Hr [r Hd]. rewrite (run_readable _ _ _ _ _ Hr Hd).
  destruct (patch_lines (input_lines text)) as [out|e] eqn:Hp; cbn [files].
  - assert (readable_text
              (<[dst_path:=Regular r true (Some (concat out))]> fs) src
            = Some text) as Hr'.
    { unfold readable_text in *. by rewrite lookup_insert_ne. }
    assert (dst_openable
              (<[dst_path:=Regular r true (Some (concat out))]> fs)
            = Some r) as Hd'.
    { unfold dst_openable. by rewrite lookup_insert_eq. }
    rewrite (run_readable prog _ _ _ _ Hr' Hd'), Hp. simpl.
    by rewrite !file_text_insert.
  - by rewrite (run_readable prog _ _ _ _ Hr Hd), Hp.
Qed.

(** The transformation itself is not idempotent: patching the output of a
    patch can change it again. *)
Example patch_of_patch_differs :
  let lines := [lit "python -c a; python -c b" ++ [NL]] in
  ∃ once twice,
    patch_lines lines = Ok once ∧ patch_lines once = Ok twice ∧ once ≠ twice.
Proof. eexists _, _. repeat split; try reflexivity. discriminate. Qed.

(** * Further properties of the script *)

(** ** The loop as a filter followed by the quoting fix *)

Section KeptFacts.

Implicit Types (st : state) (line l : str) (lines kept out : list str).

Lemma mapM_result_cons (f : str → result str) l lines :
  mapM f (l :: lines) = (y ← f l; k ← mapM f lines; Ok (y :: k)).
Proof. reflexivity. Qed.

Lemma mapM_result_Ok (f : str → result str) lines out :
  mapM f lines = Ok out ↔ Forall2 (λ l o, f l = Ok o) lines out.
Proof.
  revert out. induction lines as [|l lines IH]; intros out.
  - split; [intros [= <-]; constructor|by inversion 1].
  - rewrite mapM_result_cons. split.
    + destruct (f l) as [y|e] eqn:Ey; simpl; [|done].
      destruct (mapM f lines) as [k|e] eqn:Ek; simpl; [|done].
      intros [= <-]. constructor; [done|]. by apply IH.
    + inversion 1 as [|? o ? k Hy Hk]; subst. rewrite Hy. simpl.
      apply IH in Hk. by rewrite Hk.
Qed.

(** The output of the loop from any state: what was there, then the fixed
    kept lines. *)
Lemma loop_kept st lines :
  (st' ← loop st lines; Ok (output_lines st')) =
  (o ← mapM fix_quoting (kept_lines (inside_path_check st) lines);
   Ok (output_lines st ++ o)).
Proof.
  revert st. induction lines as [|l lines IH]; intros st.
  - simpl. by rewrite app_nil_r.
  - cbn [loop kept_lines]. destruct (is_marker l) eqn:Hm.
    + rewrite step_marker by done. simpl. apply (IH (State true _)).
    + destruct (inside_path_check st) eqn:Hin.
      * destruct (is_terminator l) eqn:Ht.
        -- rewrite step_terminator by done. simpl. apply (IH (State false _)).
        -- rewrite step_inside_skip by done. simpl. apply (IH (State true _)).
      * destruct (is_error_line l) eqn:He.
        -- rewrite step_error_line by done. simpl. rewrite IH. by rewrite Hin.
        -- rewrite step_emit by done. rewrite mapM_result_cons.
           destruct (fix_quoting l) as [l'|e]; simpl; [|done].
           rewrite (IH (State false _)). simpl.
           destruct (mapM fix_quoting (kept_lines false lines)); simpl; [|done].
           by rewrite <- app_assoc.
Qed.

Lemma patch_lines_kept lines :
  patch_lines lines = mapM fix_quoting (kept_lines false lines).
Proof.
  unfold patch_lines. rewrite (loop_kept (State false [])). simpl.
  by destruct (mapM fix_quoting (kept_lines false lines)).
Qed.


Lemma kept_lines_clean inside lines :
  Forall (λ l, is_marker l = false ∧ is_error_line l = false)
         (kept_lines inside lines).
Proof.
  revert inside. induction lines as [|l lines IH]; intros inside; simpl.
  - constructor.
  - destruct (is_marker l) eqn:Hm; [done|].
    destruct inside; [done|].
    destruct (is_error_line l) eqn:He; [done|]. by constructor.
Qed.

Lemma kept_lines_clean_id lines :
  Forall (λ l, is_marker l = false ∧ is_error_line l = false) lines →
  kept_lines false lines = lines.
Proof.
  induction 1 as [|l lines [Hm He] _ IH]; simpl; [done|].
  by rewrite Hm, He, IH.
Qed.

End KeptFacts.

(** X1: the loop is a filter followed by a map.  The output is the quoting
    fix of the kept lines, in order, and the scan raises exactly when the fix
    of a kept line does: a line dropped by the guard-block rule or the
    error-line rule never reaches the regular expression. *)
Theorem loop_is_filter_then_fix lines :
  patch_lines lines = mapM fix_quoting (kept_lines false lines).
Proof. apply patch_lines_kept. Qed.



(** ** Reading and writing lines *)

(** X3: a text in which no line is touched by the three rules is copied:
    [Makefile.ci] gets the text as it was read, that is with every carriage
    return, alone or before a line feed, turned into a line feed. *)
Theorem untouched_text_is_copied prog src fs text :
  readable_text fs src = Some text →
  is_Some (dst_openable fs) →
  Forall unrelated (input_lines text) →
  (run [prog; src] fs).1 = Ok () ∧
  file_text (files (run [prog; src] fs).2) dst_path =
    Some (universal_newlines text).
Proof.
  intros Hr [r Hd] Hall.
  assert (patch_lines (input_lines text) = Ok (input_lines text)) as Hp.
  { unfold patch_lines. by rewrite loop_unrelated. }
  rewrite (run_readable _ _ _ _ _ Hr Hd), Hp. simpl.
  rewrite file_text_insert. unfold input_lines.
  by rewrite concat_split_lines.
Qed.

Lemma untouched_text_is_copied_witness :
  let text := lit "all: build" ++ [13; NL] ++ lit "clean:" ++ [13] in
  let fs : gmap str node :=
    {[ lit "Makefile" := Regular true true (Some text) ]} in
  file_text (files (run [lit "patch.py"; lit "Makefile"] fs).2) dst_path =
    Some (lit "all: build" ++ [NL] ++ lit "clean:" ++ [NL]).
Proof.
  pose proof (untouched_text_is_copied (lit "patch.py") (lit "Makefile")
    {[ lit "Makefile" := Regular true true
         (Some (lit "all: build" ++ [13; NL] ++ lit "clean:" ++ [13])) ]}
    (lit "all: build" ++ [13; NL] ++ lit "clean:" ++ [13])) as H.
  cbv zeta. destruct H as [_ H].
  - vm_compute; reflexivity.
  - exists true. vm_compute; reflexivity.
  - repeat constructor.
  - exact H.
Defined.

Lemma lines_ok_no_cr ls :
  CR ∉ concat ls → Forall (λ l, CR ∉ l) ls.
Proof.
  induction ls as [|l ls IH]; simpl; [constructor|].
  rewrite elem_of_app. intros H. constructor; [tauto|]. apply IH. tauto.
Qed.

Lemma readlines_shape_lemma text :
  lines_ok (input_lines text) ∧
  Forall (λ l, full_line l ∨ partial_line l) (input_lines text).
Proof.
  unfold input_lines.
  pose proof (split_lines_ok (universal_newlines text)) as Hok.
  split; [done|]. apply Forall_forall. intros l Hl.
  by apply (lines_ok_elem _ _ Hok).
Qed.

(** X4: the lines handed to the loop.  Each one is not empty and has no
    carriage return; a line feed occurs only as the last character of a
    line, and every line but the last one ends with it. *)
Theorem readlines_shape text :
  lines_ok (input_lines text) ∧
  Forall (λ l, l ≠ [] ∧ (CR ∉ l) ∧ (full_line l ∨ partial_line l))
         (input_lines text).
Proof.
  unfold input_lines.
  pose proof (split_lines_ok (universal_newlines text)) as Hok.
  split; [done|].
  pose proof (universal_newlines_no_cr text) as Hcr.
  rewrite <- (concat_split_lines (universal_newlines text)) in Hcr.
  apply lines_ok_no_cr in Hcr.
  apply Forall_forall. intros l Hl.
  destruct (lines_ok_elem _ _ Hok Hl) as [Hf|Hp].
  - split_and!; [|by eapply Forall_forall in Hcr|by left].
    destruct Hf as (body & -> & _). by destruct body.
  - split_and!; [apply Hp|by eapply Forall_forall in Hcr|by right].
Qed.

(** X5: writing the lines that were read and reading the result gives the
    same lines again, and the text written is the text as it was read. *)
Theorem readlines_writelines_round_trip text :
  concat (input_lines text) = universal_newlines text ∧
  input_lines (concat (input_lines text)) = input_lines text.
Proof.
  unfold input_lines. rewrite concat_split_lines. split; [done|].
  by rewrite universal_newlines_id by apply universal_newlines_no_cr.
Qed.

(** ** Failures after the input has been read *)

Section FailureFacts.

Implicit Types (fs : gmap str node) (src prog : str) (argv : list str).

Lemma parse_template_aux_raise n groups s e :
  Re.parse_template_aux n groups s = Raise e → e = TemplateError.
Proof.
  revert s. induction n as [|n IH]; intros s; [done|].
  cbn [Re.parse_template_aux]. cbv zeta. unfold Re.addgroup.
  repeat (case_match; try done);
    try (by intros [= <-]);
    match goal with
    | |- (?m ≫= _) = Raise _ → _ =>
        destruct m eqn:E; simpl; [done|intros [= <-]; eauto]
    end.
Qed.

Lemma fix_quoting_raise line e :
  fix_quoting line = Raise e → e = TemplateError.
Proof.
  unfold fix_quoting, Re.sub, Re.parse_template. cbv zeta.
  repeat (case_match; try done).
  destruct (Re.parse_template_aux _ _ _) eqn:E; simpl; [done|].
  intros [= <-]. by eapply parse_template_aux_raise.
Qed.

Lemma patch_lines_raise lines e :
  patch_lines lines = Raise e → e = TemplateError.
Proof.
  rewrite patch_lines_kept.
  induction (kept_lines false lines) as [|l kept IH]; [done|].
  rewrite mapM_result_cons.
  destruct (fix_quoting l) eqn:E; simpl.
  - destruct (mapM fix_quoting kept); simpl; [done|].
    intros [= <-]. by apply IH.
  - intros [= <-]. by eapply fix_quoting_raise.
Qed.

Lemma run_write_open_error prog src fs text out :
  readable_text fs src = Some text →
  patch_lines (input_lines text) = Ok out →
  dst_openable fs = None →
  run [prog; src] fs =
    (Raise (write_error fs),
     World fs [] [OpenRead src; ReadLines src; Close src]).
Proof.
  unfold readable_text, input_lines, dst_openable, write_error.
  intros H Ho Hd. run_unfold.
  destruct (fs !! src) as [[[] w [t|]|]|] eqn:E; simplify_eq; simpl.
  rewrite Ho.
  by destruct (fs !! dst_path) as [[r [] t'|]|] eqn:E'; simplify_eq; simpl.
Qed.


End FailureFacts.

(** X6: when the quoting fix of a line raises, the script ends with that
    exception and exit status 1 after it has read and closed the input:
    [Makefile.ci] is not opened, no file changes and nothing is printed.  The
    only exception the loop can raise is the one of the replacement
    template. *)
Theorem processing_error_leaves_no_output prog src fs text e :
  readable_text fs src = Some text →
  patch_lines (input_lines text) = Raise e →
  let '(r, w) := run [prog; src] fs in
  e = TemplateError ∧ r = Raise e ∧ exit_status r = 1%Z ∧
  files w = fs ∧ stdout w = [] ∧
  trace w = [OpenRead src; ReadLines src; Close src].
Proof.
  intros Hr Hp. rewrite (run_patch_error _ _ _ _ _ Hr Hp).
  pose proof (patch_lines_raise _ _ Hp) as ->. done.
Qed.

Lemma processing_error_leaves_no_output_witness :
  let text := lit "all:" ++ [NL] ++ lit "        python -c print('\d')" ++ [NL] in
  let fs : gmap str node :=
    {[ lit "Makefile" := Regular true true (Some text) ]} in
  let '(r, w) := run [lit "patch.py"; lit "Makefile"] fs in
  TemplateError = TemplateError ∧ r = Raise TemplateError ∧
  exit_status r = 1%Z ∧ files w = fs ∧ stdout w = [] ∧
  trace w = [OpenRead (lit "Makefile"); ReadLines (lit "Makefile");
             Close (lit "Makefile")].
Proof.
  apply (processing_error_leaves_no_output (lit "patch.py") (lit "Makefile")
    {[ lit "Makefile" := Regular true true
         (Some (lit "all:" ++ [NL] ++ lit "        python -c print('\d')"
                ++ [NL])) ]}
    (lit "all:" ++ [NL] ++ lit "        python -c print('\d')" ++ [NL])
    TemplateError).
  - vm_compute; reflexivity.
  - vm_compute; reflexivity.
Defined.

(** X7: when [Makefile.ci] is a directory or may not be written, the script
    fails at [open(dst_path, "w")], after the whole input has been read and
    patched: the exception is the one of the open, the exit status is 1, the
    confirmation is not printed and the file system is as before (an existing
    [Makefile.ci] is not emptied). *)
Theorem unwritable_output prog src fs text out :
  readable_text fs src = Some text →
  patch_lines (input_lines text) = Ok out →
  dst_openable fs = None →
  let '(r, w) := run [prog; src] fs in
  r = Raise (write_error fs) ∧ exit_status r = 1%Z ∧
  files w = fs ∧ stdout w = [] ∧
  trace w = [OpenRead src; ReadLines src; Close src].
Proof.
  intros Hr Hp Hd. rewrite (run_write_open_error _ _ _ _ _ Hr Hp Hd).
  split_and!; try done. unfold write_error.
  by destruct (fs !! dst_path) as [[]|].
Qed.

Lemma unwritable_output_witness :
  let fs : gmap str node :=
    {[ lit "Makefile" := Regular true true (Some (lit "all:" ++ [NL]));
       dst_path := Regular true false (Some (lit "old")) ]} in
  let '(r, w) := run [lit "patch.py"; lit "Makefile"] fs in
  r = Raise (write_error fs) ∧ exit_status r = 1%Z ∧
  files w = fs ∧ stdout w = [] ∧
  trace w = [OpenRead (lit "Makefile"); ReadLines (lit "Makefile");
             Close (lit "Makefile")].
Proof.
  apply (unwritable_output (lit "patch.py") (lit "Makefile")
    {[ lit "Makefile" := Regular true true (Some (lit "all:" ++ [NL]));
       dst_path := Regular true false (Some (lit "old")) ]}
    (lit "all:" ++ [NL]) [lit "all:" ++ [NL]]).
  - vm_compute; reflexivity.
  - vm_compute; reflexivity.
  - vm_compute; reflexivity.
Defined.




(** ** The terminator test *)

Section TerminatorFacts.

Implicit Types (s ws p : str) (c : char).

Lemma lstrip_snoc s c :
  lstrip (s ++ [c]) =
  match lstrip s with
  | [] => if isspace c then [] else [c]
  | _ :: _ => lstrip s ++ [c]
  end.
Proof.
  induction s as [|d s IH]; simpl; [done|].
  destruct (isspace d); [done|]. done.
Qed.

(** [rstrip] from the front of the string. *)
Lemma rstrip_cons c s :
  rstrip (c :: s) =
  match rstrip s with
  | [] => if isspace c then [] else [c]
  | _ :: _ => c :: rstrip s
  end.
Proof.
  unfold rstrip. simpl. rewrite lstrip_snoc.
  destruct (lstrip (rev s)) as [|d t] eqn:E; simpl.
  - by destruct (isspace c).
  - rewrite rev_app_distr. simpl. by destruct (rev t).
Qed.

Lemma rstrip_prefix s : ∃ t, s = rstrip s ++ t.
Proof.
  induction s as [|c s [t IH]]; [by exists []|].
  rewrite rstrip_cons. destruct (rstrip s) as [|d r] eqn:E.
  - destruct (isspace c); [by exists (c :: s)|by exists s].
  - exists t. simpl. by rewrite IH at 1.
Qed.

Lemma rstrip_nonspace_cons c s :
  isspace c = false → rstrip (c :: s) = c :: rstrip s.
Proof. intros H. rewrite rstrip_cons, H. by destruct (rstrip s). Qed.

Lemma rstrip_space_app ws s :
  rstrip s ≠ [] → rstrip (ws ++ s) = ws ++ rstrip s.
Proof.
  intros Hs. induction ws as [|c ws IH]; [done|].
  simpl. rewrite rstrip_cons, IH.
  destruct (ws ++ rstrip s) eqn:E; [|done].
  by apply app_eq_nil in E as [_ ?].
Qed.

Lemma lstrip_space_prefix s :
  ∃ ws, Forall (λ c, isspace c = true) ws ∧ s = ws ++ lstrip s.
Proof.
  induction s as [|c s (ws & Hws & IH)]; [by exists []|]. simpl.
  destruct (isspace c) eqn:E.
  - exists (c :: ws). split; [by constructor|]. simpl. by f_equal.
  - by exists [].
Qed.

(** A code is its stripped form between two runs of characters. *)
Lemma strip_decompose s : ∃ a b, s = a ++ strip s ++ b.
Proof.
  destruct (rstrip_prefix s) as [b Hb].
  destruct (lstrip_space_prefix (rstrip s)) as (a & _ & Ha).
  exists a, b. unfold strip. rewrite app_assoc, <- Ha. done.
Qed.

End TerminatorFacts.

(** X10: what ends a guard block.  The test [line.strip().startswith('endif')]
    holds exactly for the lines made of whitespace, then [endif], then
    anything: indentation is ignored, and [endif] need not be a whole word
    nor the whole line. *)
Theorem terminator_lines line :
  is_terminator line = true ↔
  ∃ ws rest, Forall (λ c, isspace c = true) ws ∧ line = ws ++ endif ++ rest.
Proof.
  unfold is_terminator, strip. split.
  - intros H. apply startswith_prefix in H as [r Hr].
    destruct (rstrip_prefix line) as [t Ht].
    destruct (lstrip_space_prefix (rstrip line)) as (ws & Hws & Hl).
    exists ws, (r ++ t). split; [done|].
    rewrite Ht at 1. rewrite Hl at 1. rewrite Hr.
    by rewrite <- !app_assoc.
  - intros (ws & rest & Hws & ->).
    assert (rstrip (endif ++ rest) = endif ++ rstrip rest) as He.
    { change (endif ++ rest) with (101 :: 110 :: 100 :: 105 :: 102 :: rest).
      by rewrite !rstrip_nonspace_cons. }
    rewrite rstrip_space_app by (by rewrite He).
    rewrite lstrip_app_space by done. rewrite He.
    change (lstrip (endif ++ rstrip rest)) with (endif ++ rstrip rest).
    apply startswith_app.
Qed.

(** ** Where the pattern matches *)

Section SearchFacts.

Implicit Types (l a b g rest before line : str) (c : char).

Lemma search_nil : Re.search [] = None.
Proof. reflexivity. Qed.

Lemma search_cons c l :
  Re.search (c :: l) =
  match Re.match_at (c :: l) with
  | Some (g, rest) => Some ([], g, rest)
  | None =>
      match Re.search l with
      | Some (p, g, r) => Some (c :: p, g, r)
      | None => None
      end
  end.
Proof. reflexivity. Qed.

Lemma match_at_hit c l :
  c ≠ DQ → c ≠ NL → is_Some (Re.match_at (Re.pyc_prefix ++ c :: l)).
Proof.
  intros Hdq Hnl. unfold Re.match_at. rewrite startswith_app.
  replace (drop 10 (Re.pyc_prefix ++ c :: l)) with (c :: l) by reflexivity.
  apply N.eqb_neq in Hdq, Hnl. rewrite Hdq, Hnl. simpl.
  by destruct (span_line l).
Qed.

(** No match anywhere: no suffix of the line starts with a match. *)
Lemma search_none_iff l :
  Re.search l = None ↔ ∀ a b, l = a ++ b → Re.match_at b = None.
Proof.
  induction l as [|c l IH].
  - split; [|done]. intros _ a b H. symmetry in H.
    apply app_eq_nil in H as [_ ->]. reflexivity.
  - rewrite search_cons. split.
    + intros H a b Hab.
      destruct (Re.match_at (c :: l)) as [[g r]|] eqn:Em; [done|].
      destruct (Re.search l) as [[[p g] r]|] eqn:Es; [done|].
      destruct a as [|d a]; simpl in Hab; [by subst|].
      simplify_eq. by eapply IH.
    + intros H. rewrite (H [] (c :: l) eq_refl).
      assert (Re.search l = None) as ->; [|done].
      apply IH. intros a b ->. by apply (H (c :: a) b).
Qed.

Lemma search_none_all_quoted line :
  Re.search line = None ↔ all_quoted line.
Proof.
  rewrite search_none_iff. unfold all_quoted. split.
  - intros H a b ->. destruct b as [|c b]; [by left|].
    destruct (decide (c = DQ)) as [->|Hdq]; [right; left; by eexists|].
    destruct (decide (c = NL)) as [->|Hnl]; [right; right; by eexists|].
    destruct (match_at_hit c b Hdq Hnl) as [x Hx].
    by rewrite (H a _ eq_refl) in Hx.
  - intros H a b ->.
    destruct (Re.match_at b) as [[g r]|] eqn:Em; [|done].
    apply match_at_spec in Em as (-> & (c & g' & -> & Hdq & Hnl) & _).
    destruct (H a _ eq_refl) as [?|[[? ?]|[? ?]]]; simpl in *; by simplify_eq.
Qed.

End SearchFacts.

(** X11: which lines the quoting fix can touch.  The pattern matches
    somewhere in a line exactly when some [python -c ] of the line is followed
    by a character other than a double quote and a line feed; when there is
    none (no [python -c ] at all, or each one already followed by a double
    quote), the line is written as it is. *)
Theorem quoted_lines_unchanged line :
  (Re.search line = None ↔ all_quoted line) ∧
  (all_quoted line → fix_quoting line = Ok line).
Proof.
  split; [apply search_none_all_quoted|].
  intros H. apply search_none_all_quoted in H.
  unfold fix_quoting. by rewrite H.
Qed.

Lemma quoted_lines_unchanged_witness :
  let line := lit "        python -c " ++ [DQ] ++ lit "print(1)" ++ [DQ; NL] in
  fix_quoting line = Ok line.
Proof.
  apply (proj2 (quoted_lines_unchanged
    (lit "        python -c " ++ [DQ] ++ lit "print(1)" ++ [DQ; NL]))).
  apply search_none_all_quoted. vm_compute; reflexivity.
Defined.

(** X12: the rewrite of a line read from a file, when the stripped code
    starts with no quote and has no backslash.  The line is the text before
    the match, [python -c ], the code and at most a line feed; the output
    line keeps the text before and the line feed and has, in between,
    [python -c ] and the stripped code in double quotes.  The stripped code
    neither starts nor ends with whitespace. *)
Theorem plain_code_is_quoted text l before g rest :
  l ∈ input_lines text →
  Re.search l = Some (before, g, rest) →
  startswith [DQ] (strip g) = false →
  startswith [SQ] (strip g) = false →
  BACKSLASH ∉ strip g →
  l = before ++ Re.pyc_prefix ++ g ++ rest ∧
  (rest = [] ∨ rest = [NL]) ∧
  fix_quoting l = Ok (before ++ quoted (strip g) ++ rest) ∧
  (∀ c, head (strip g) = Some c → isspace c = false) ∧
  (∀ c, last (strip g) = Some c → isspace c = false).
Proof.
  intros Hl Hs Hdq Hsq Hb.
  pose proof (lines_ok_elem _ _ (split_lines_ok _) Hl) as Hshape.
  destruct (fix_quoting_line _ _ _ _ Hshape Hs Hdq Hsq Hb) as (Hf & Hr & Hlast).
  split_and!; try done.
  - by apply search_spec in Hs as [? _].
  - intros c. unfold strip. apply lstrip_head.
Qed.

Lemma plain_code_is_quoted_witness :
  fix_quoting (lit "        python -c  print(1) " ++ [NL]) =
  Ok (lit "        " ++ quoted (lit "print(1)") ++ [NL]).
Proof.
  refine (proj1 (proj2 (proj2 (plain_code_is_quoted
    (lit "all:" ++ [NL] ++ lit "        python -c  print(1) " ++ [NL])
    (lit "        python -c  print(1) " ++ [NL])
    (lit "        ") (lit " print(1) ") [NL] _ _ _ _ _)))).
  - vm_compute. apply list_elem_of_further, list_elem_of_here.
  - vm_compute; reflexivity.
  - vm_compute; reflexivity.
  - vm_compute; reflexivity.
  - vm_compute. intros H.
    repeat (apply elem_of_cons in H as [H|H]; [discriminate H|]).
    by apply elem_of_nil in H.
Defined.

(** X13: on a line read from a file the pattern matches at most once, from
    the first such [python -c ] to the end of the line.  Whatever the
    replacement turns out to be, also with an expanded escape, the output
    line keeps the text before the match and the line feed of the line. *)
Theorem one_replacement_per_line text l before g rest out :
  l ∈ input_lines text →
  Re.search l = Some (before, g, rest) →
  fix_quoting l = Ok out →
  l = before ++ Re.pyc_prefix ++ g ++ rest ∧
  (rest = [] ∨ rest = [NL]) ∧
  ∃ x, out = before ++ x ++ rest.
Proof.
  intros Hl Hs Hf.
  pose proof (lines_ok_elem _ _ (split_lines_ok _) Hl) as Hshape.
  destruct (search_line_rest _ _ _ _ Hshape Hs) as [Hr Hnone].
  pose proof Hs as Hs'. apply search_spec in Hs' as [Heq _].
  split_and!; try done.
  unfold fix_quoting in Hf. rewrite Hs in Hf. cbv zeta in Hf.
  destruct (negb (startswith [DQ] (strip g)) && negb (startswith [SQ] (strip g))).
  - unfold Re.sub in Hf.
    destruct (Re.parse_template 0 (quoted (strip g))) as [t|e]; [|done].
    simpl in Hf. rewrite sub_aux_unfold, Hs, sub_aux_unfold, Hnone in Hf.
    injection Hf as <-. by eexists.
  - injection Hf as <-. exists (Re.pyc_prefix ++ g). by rewrite <- app_assoc.
Qed.

Lemma one_replacement_per_line_witness :
  ∃ x, lit "run: python -c " ++ [DQ] ++ lit "print('a" ++ [NL]
       ++ lit "b')" ++ [DQ; NL] = lit "run: " ++ x ++ [NL].
Proof.
  refine (proj2 (proj2 (one_replacement_per_line
    (lit "run: python -c print('a\nb')" ++ [NL])
    (lit "run: python -c print('a\nb')" ++ [NL])
    (lit "run: ") (lit "print('a\nb')") [NL] _ _ _ _))).
  - vm_compute. apply list_elem_of_here.
  - vm_compute; reflexivity.
  - vm_compute; reflexivity.
Defined.

(** ** A second pass over the output *)

Section StableFacts.

Implicit Types (l a b g rest before line code n o : str) (c : char).

Lemma startswith_stop c n a b :
  c ∉ n → startswith n (a ++ c :: b) = startswith n a.
Proof.
  revert a. induction n as [|x n IH]; intros a Hc; [by destruct a|].
  apply not_elem_of_cons in Hc as [Hx Hn].
  destruct a as [|y a]; simpl.
  - assert ((x =? c) = false) as -> by (apply N.eqb_neq; congruence). done.
  - by rewrite IH.
Qed.

(** A needle cannot lie across a character it does not contain. *)
Lemma contains_split_at c n a b :
  c ∉ n → n ≠ [] →
  contains n (a ++ c :: b) = contains n a || contains n b.
Proof.
  intros Hc Hn. induction a as [|y a IH].
  - pose proof (startswith_stop c n [] b Hc) as Hs. simpl in Hs.
    cbn [app contains]. rewrite Hs. by destruct n.
  - change ((y :: a) ++ c :: b) with (y :: (a ++ c :: b)).
    cbn [contains]. rewrite IH.
    change (y :: (a ++ c :: b)) with ((y :: a) ++ c :: b).
    rewrite (startswith_stop c n (y :: a) b Hc).
    by rewrite orb_assoc.
Qed.

Lemma contains_inside n a x b :
  contains n x = true → contains n (a ++ x ++ b) = true.
Proof.
  rewrite !contains_spec. intros (a' & b' & ->).
  exists (a ++ a'), (b' ++ b). by rewrite <- !app_assoc.
Qed.

(** The quotes around the code bring no new occurrence of a text without
    double quote. *)
Lemma contains_quoted n before g rest a b :
  DQ ∉ n → n ≠ [] →
  g = a ++ strip g ++ b →
  contains n (before ++ quoted (strip g) ++ rest) = true →
  contains n (before ++ Re.pyc_prefix ++ g ++ rest) = true.
Proof.
  intros Hdq Hn Hg. unfold quoted.
  change (lit "python -c ") with Re.pyc_prefix.
  replace (before ++ (Re.pyc_prefix ++ [DQ] ++ strip g ++ [DQ]) ++ rest)
    with ((before ++ Re.pyc_prefix) ++ DQ :: (strip g ++ DQ :: rest))
    by (by rewrite <- !app_assoc).
  rewrite !contains_split_at by done.
  intros H. apply orb_true_iff in H as [H|H].
  - apply (contains_inside n [] _ (g ++ rest)) in H.
    by rewrite <- app_assoc in H.
  - apply orb_true_iff in H as [H|H].
    + rewrite Hg.
      apply (contains_inside n (before ++ Re.pyc_prefix ++ a) _ (b ++ rest)) in H.
      by rewrite <- !app_assoc in *.
    + apply (contains_inside n (before ++ Re.pyc_prefix ++ g) _ []) in H.
      by rewrite app_nil_r, <- !app_assoc in H.
Qed.

(** A match at the head of a text depends on its first eleven characters. *)
Lemma match_at_window l1 l2 :
  take 11 l1 = take 11 l2 → Re.match_at l1 = None → Re.match_at l2 = None.
Proof.
  intros Ht H1. destruct (Re.match_at l2) as [[g r]|] eqn:E2; [|done].
  apply match_at_spec in E2 as (-> & (c & g' & -> & Hdq & Hnl) & _).
  assert (take 11 l1 = Re.pyc_prefix ++ [c]) as Ht' by (by rewrite Ht).
  rewrite <- (take_drop 11 l1), Ht', <- app_assoc in H1.
  destruct (match_at_hit c (drop 11 l1) Hdq Hnl) as [x Hx].
  change ([c] ++ drop 11 l1) with (c :: drop 11 l1) in H1.
  by rewrite H1 in Hx.
Qed.

Lemma match_at_no_prefix l :
  startswith Re.pyc_prefix l = false → Re.match_at l = None.
Proof. unfold Re.match_at. by intros ->. Qed.

(** What comes after the leftmost match does not bring a match before it. *)
Lemma search_before_none before g rest y :
  Re.search (before ++ Re.pyc_prefix ++ g ++ rest) = Some (before, g, rest) →
  Re.search (Re.pyc_prefix ++ y) = None →
  Re.search (before ++ Re.pyc_prefix ++ y) = None.
Proof.
  intros Hs Hy. induction before as [|c p IH]; [done|].
  rewrite <- app_comm_cons in Hs. rewrite search_cons in Hs.
  destruct (Re.match_at (c :: p ++ Re.pyc_prefix ++ g ++ rest))
    as [[g' r']|] eqn:Em; [done|].
  destruct (Re.search (p ++ Re.pyc_prefix ++ g ++ rest))
    as [[[p' g'] r']|] eqn:Es; [|done].
  simplify_eq. rewrite <- app_comm_cons, search_cons.
  assert (take 11 (c :: p ++ Re.pyc_prefix ++ g ++ rest) =
          take 11 (c :: p ++ Re.pyc_prefix ++ y)) as Hw.
  { rewrite !app_comm_cons, !(app_assoc _ Re.pyc_prefix).
    assert (11 ≤ length ((c :: p) ++ Re.pyc_prefix))%nat as Hlen
      by (rewrite length_app; simpl; lia).
    by rewrite (take_app_le _ (g ++ rest) _ Hlen), (take_app_le _ y _ Hlen). }
  by rewrite (match_at_window _ _ Hw Em), IH.
Qed.

Lemma search_quote_after_prefix y :
  Re.search y = None → Re.search (Re.pyc_prefix ++ DQ :: y) = None.
Proof.
  intros Hy. rewrite pyc_prefix_eq. cbn [app].
  do 11 (rewrite search_cons;
         match goal with
         | |- context [Re.match_at ?x] =>
             change (Re.match_at x) with (@None (str * str))
         end; cbv beta iota).
  by rewrite Hy.
Qed.

Lemma search_code_none code rest :
  contains Re.pyc_prefix code = false →
  Re.search rest = None →
  Re.search (code ++ DQ :: rest) = None.
Proof.
  intros Hc Hr. induction code as [|c code IH].
  - cbn [app]. rewrite search_cons.
    change (Re.match_at (DQ :: rest)) with (@None (str * str)).
    by rewrite Hr.
  - simpl in Hc. apply orb_false_iff in Hc as [Hs Hc].
    change ((c :: code) ++ DQ :: rest) with (c :: (code ++ DQ :: rest)).
    rewrite search_cons, IH by done.
    rewrite match_at_no_prefix; [done|].
    change (c :: (code ++ DQ :: rest)) with ((c :: code) ++ DQ :: rest).
    rewrite startswith_stop; [done|].
    vm_compute. intros H.
    repeat (apply elem_of_cons in H as [H|H]; [discriminate H|]).
    by apply elem_of_nil in H.
Qed.

(** A fixed line is not fixed again, and has neither the marker nor the
    error phrase when the line had none. *)
Lemma fix_quoting_stable l o :
  full_line l ∨ partial_line l →
  tame l →
  fix_quoting l = Ok o →
  fix_quoting o = Ok o ∧
  (is_marker l = false → is_marker o = false) ∧
  (is_error_line l = false → is_error_line o = false).
Proof.
  intros Hshape Ht Hf. unfold tame in Ht.
  destruct (Re.search l) as [[[before g] rest]|] eqn:Hs; cbv zeta in Ht.
  - destruct (startswith [DQ] (strip g)) eqn:Hdq.
    { assert (fix_quoting l = Ok l) as Hu
        by (apply fix_quoting_unchanged; rewrite Hs; by left).
      rewrite Hu in Hf. injection Hf as <-. by split_and!. }
    destruct (startswith [SQ] (strip g)) eqn:Hsq.
    { assert (fix_quoting l = Ok l) as Hu
        by (apply fix_quoting_unchanged; rewrite Hs; by right).
      rewrite Hu in Hf. injection Hf as <-. by split_and!. }
    destruct Ht as [?|[?|[Hb Hc]]]; [done..|].
    destruct (fix_quoting_line _ _ _ _ Hshape Hs Hdq Hsq Hb) as (Hf' & _ & _).
    destruct (search_line_rest _ _ _ _ Hshape Hs) as [_ Hnone].
    pose proof Hs as Hs'. apply search_spec in Hs' as [Hl _].
    assert (o = before ++ quoted (strip g) ++ rest) as -> by congruence.
    clear Hf.
    destruct (strip_decompose g) as (a & b & Hg).
    split_and!.
    + assert (Re.search (before ++ quoted (strip g) ++ rest) = None) as Hno.
      { unfold quoted. change (lit "python -c ") with Re.pyc_prefix.
        replace (before ++ (Re.pyc_prefix ++ [DQ] ++ strip g ++ [DQ]) ++ rest)
          with (before ++ Re.pyc_prefix ++ DQ :: (strip g ++ DQ :: rest))
          by (by rewrite <- !app_assoc).
        apply (search_before_none before g rest); [by rewrite <- Hl|].
        by apply search_quote_after_prefix, search_code_none. }
      unfold fix_quoting. by rewrite Hno.
    + unfold is_marker. intros Hm.
      destruct (contains METACHARACTERS (before ++ quoted (strip g) ++ rest))
        eqn:E; [|done].
      apply (contains_quoted _ _ _ _ a b) in E; [by rewrite <- Hl, Hm in E| |done..].
      vm_compute. intros H.
      repeat (apply elem_of_cons in H as [H|H]; [discriminate H|]).
      by apply elem_of_nil in H.
    + unfold is_error_line. intros Hm.
      destruct (contains cowardly (before ++ quoted (strip g) ++ rest))
        eqn:E; [|done].
      apply (contains_quoted _ _ _ _ a b) in E; [by rewrite <- Hl, Hm in E| |done..].
      vm_compute. intros H.
      repeat (apply elem_of_cons in H as [H|H]; [discriminate H|]).
      by apply elem_of_nil in H.
  - assert (fix_quoting l = Ok l) as Hu
      by (apply fix_quoting_unchanged; by rewrite Hs).
    rewrite Hu in Hf. injection Hf as <-. by split_and!.
Qed.

Lemma kept_lines_Forall (Q : str → Prop) inside lines :
  Forall Q lines → Forall Q (kept_lines inside lines).
Proof.
  intros H. revert inside.
  induction H as [|l lines Hl _ IH]; intros inside; simpl; [constructor|].
  destruct (is_marker l); [done|]. destruct inside; [done|].
  destruct (is_error_line l); [done|]. by constructor.
Qed.

End StableFacts.

Lemma patched_lines_stable_lemma text out :
  Forall tame (input_lines text) →
  patch_lines (input_lines text) = Ok out →
  patch_lines out = Ok out.
Proof.
  intros Htame. rewrite !patch_lines_kept. intros H.
  apply mapM_result_Ok in H.
  pose proof (proj2 (readlines_shape_lemma text)) as Hshape.
  assert (Forall (λ o, fix_quoting o = Ok o ∧ is_marker o = false ∧
                       is_error_line o = false) out) as Hout.
  { pose proof (kept_lines_clean false (input_lines text)) as Hclean.
    apply (kept_lines_Forall _ false) in Htame, Hshape.
    induction H as [|l o kept out' Hlo _ IH]; [constructor|].
    apply Forall_cons in Hclean as [[Hm He] Hclean].
    apply Forall_cons in Htame as [Htl Htame].
    apply Forall_cons in Hshape as [Hsl Hshape].
    constructor; [|by apply IH].
    destruct (fix_quoting_stable l o Hsl Htl Hlo) as (? & Hm' & He').
    split_and!; [done|by apply Hm'|by apply He']. }
  rewrite kept_lines_clean_id.
  - apply mapM_result_Ok. clear H.
    induction Hout as [|o out' [Ho _] _ IH]; constructor; done.
  - eapply Forall_impl; [exact Hout|]. simpl. tauto.
Qed.

(** X14: the output is a fixed point when every line is tame (the pattern
    does not match, or the stripped code starts with a quote, or it has no
    backslash and no [python -c ] of its own): patching the output lines
    again gives the same lines.  Without the condition it can fail
    ([patch_of_patch_differs]). *)
Theorem patched_lines_are_stable text out :
  Forall tame (input_lines text) →
  patch_lines (input_lines text) = Ok out →
  patch_lines out = Ok out.
Proof. apply patched_lines_stable_lemma. Qed.

Lemma patched_lines_are_stable_witness :
  let out := [lit "all:" ++ [NL];
              lit "        python -c " ++ [DQ] ++ lit "print(1)" ++ [DQ; NL]] in
  patch_lines out = Ok out.
Proof.
  apply (patched_lines_are_stable
    (lit "all:" ++ [NL] ++ lit "        python -c print(1)" ++ [NL])).
  - replace (input_lines _) with
      [lit "all:" ++ [NL]; lit "        python -c print(1)" ++ [NL]]
      by (vm_compute; reflexivity).
    apply Forall_cons. split; [exact I|].
    apply Forall_cons. split; [|apply List.Forall_nil].
    right. right. split; [|vm_compute; reflexivity].
    vm_compute. intros H.
    repeat (apply elem_of_cons in H as [H|H]; [discriminate H|]).
    by apply elem_of_nil in H.
  - vm_compute; reflexivity.
Defined.

(** ** Running the script on its own output *)

Section RerunFacts.

Implicit Types (l o g rest before : str) (lines kept out : list str).

Lemma lines_ok_inv l lines :
  lines_ok (l :: lines) →
  (full_line l ∨ partial_line l) ∧ (lines ≠ [] → full_line l) ∧ lines_ok lines.
Proof.
  simpl. destruct lines as [|l' lines]; [by intros ?|].
  intros [Hf Hok]. split_and!; [by left|done|done].
Qed.

Lemma lines_ok_cons l lines :
  (full_line l ∨ partial_line l) → (lines ≠ [] → full_line l) →
  lines_ok lines → lines_ok (l :: lines).
Proof.
  intros Hl Hf Hok. simpl. destruct lines as [|l' lines]; [done|].
  split; [by apply Hf|done].
Qed.

Lemma lines_ok_kept inside lines :
  lines_ok lines → lines_ok (kept_lines inside lines).
Proof.
  revert inside. induction lines as [|l lines IH]; intros inside Hok; [done|].
  apply lines_ok_inv in Hok as (Hl & Hf & Hok). simpl.
  destruct (is_marker l); [by apply IH|].
  destruct inside; [by apply IH|].
  destruct (is_error_line l); [by apply IH|].
  apply lines_ok_cons; [done| |by apply IH].
  intros Hne. apply Hf. intros ->. by apply Hne.
Qed.

Lemma lines_ok_Forall2 kept out :
  lines_ok kept →
  Forall2 (λ l o, (full_line l → full_line o) ∧
                  (partial_line l → partial_line o)) kept out →
  lines_ok out.
Proof.
  intros Hok H. induction H as [|l o kept out' [Hf Hp] Hrest IH]; [done|].
  apply lines_ok_inv in Hok as (Hl & Hfull & Hok).
  apply lines_ok_cons; [|intros Hne; apply Hf, Hfull|by apply IH].
  - destruct Hl; [left; by apply Hf|right; by apply Hp].
  - intros ->. inversion Hrest; by subst.
Qed.

Lemma full_line_rest before g rest :
  full_line (before ++ Re.pyc_prefix ++ g ++ rest) →
  (NL ∉ g) → g ≠ [] → (rest = [] ∨ rest = [NL]) →
  rest = [NL] ∧ (NL ∉ before).
Proof.
  intros (body & Heq & Hb) Hg Hne [->| ->].
  - exfalso. rewrite app_nil_r in Heq.
    destruct (exists_last Hne) as (g' & c & ->).
    rewrite !app_assoc in Heq. apply app_inj_tail in Heq as [_ ->].
    apply Hg. rewrite elem_of_app, list_elem_of_singleton. by right.
  - split; [done|]. rewrite !app_assoc in Heq.
    apply app_inj_tail in Heq as [<- _].
    intros Hin. apply Hb. rewrite !elem_of_app. tauto.
Qed.

(** The fix keeps the shape of a line and brings no carriage return. *)
Lemma fix_quoting_shape l o :
  full_line l ∨ partial_line l →
  tame l →
  fix_quoting l = Ok o →
  (full_line l → full_line o) ∧ (partial_line l → partial_line o) ∧
  ((CR ∉ l) → CR ∉ o).
Proof.
  intros Hshape Ht Hf. unfold tame in Ht.
  destruct (Re.search l) as [[[before g] rest]|] eqn:Hs; cbv zeta in Ht.
  - destruct (startswith [DQ] (strip g)) eqn:Hdq.
    { assert (fix_quoting l = Ok l) as Hu
        by (apply fix_quoting_unchanged; rewrite Hs; by left).
      rewrite Hu in Hf. injection Hf as <-. by split_and!. }
    destruct (startswith [SQ] (strip g)) eqn:Hsq.
    { assert (fix_quoting l = Ok l) as Hu
        by (apply fix_quoting_unchanged; rewrite Hs; by right).
      rewrite Hu in Hf. injection Hf as <-. by split_and!. }
    destruct Ht as [?|[?|[Hb Hc]]]; [done..|].
    destruct (fix_quoting_line _ _ _ _ Hshape Hs Hdq Hsq Hb) as (Hf' & Hr & _).
    pose proof Hs as Hs'. apply search_spec in Hs' as [Hl Hm].
    apply match_at_spec in Hm as (_ & (c & g' & Hgc & _ & _) & Hg & _).
    assert (o = before ++ quoted (strip g) ++ rest) as -> by congruence.
    clear Hf. destruct (strip_decompose g) as (a & b & Hdec).
    assert (∀ x, x ∈ strip g → x ∈ g) as Hsub.
    { intros x Hx. rewrite Hdec, !elem_of_app. tauto. }
    assert (∀ r x, x ≠ DQ → (x ∉ Re.pyc_prefix) → (x ∉ before) → (x ∉ g) →
                   (x ∉ r) → x ∉ before ++ quoted (strip g) ++ r) as Hnot.
    { intros r x Hx HP Hxb Hxg Hxr. unfold quoted.
      change (lit "python -c ") with Re.pyc_prefix.
      rewrite !elem_of_app, !list_elem_of_singleton.
      intros [?|[[?|[?|[?|?]]]|?]]; try done. by apply Hxg, Hsub. }
    assert ((NL ∉ Re.pyc_prefix) ∧ (CR ∉ Re.pyc_prefix)) as [HPnl HPcr].
    { split; vm_compute; intros H;
        repeat (apply elem_of_cons in H as [H|H]; [discriminate H|]);
        by apply elem_of_nil in H. }
    split_and!.
    + intros Hfull. rewrite Hl in Hfull.
      destruct (full_line_rest _ _ _ Hfull Hg) as [-> Hnb];
        [by rewrite Hgc|done|].
      exists (before ++ quoted (strip g)). split; [by rewrite <- app_assoc|].
      rewrite <- (app_nil_r (quoted (strip g))).
      apply (Hnot []); try done. apply not_elem_of_nil.
    + intros [Hne Hno]. assert (rest = []) as ->.
      { destruct Hr as [->| ->]; [done|]. exfalso. apply Hno.
        rewrite Hl, !elem_of_app, list_elem_of_singleton. tauto. }
      rewrite Hl in Hno. rewrite !elem_of_app in Hno.
      split; [unfold quoted; by destruct before|].
      apply (Hnot []); try done; tauto.
    + intros Hcr. rewrite Hl in Hcr. rewrite !elem_of_app in Hcr.
      apply (Hnot rest); try done; tauto.
  - assert (fix_quoting l = Ok l) as Hu
      by (apply fix_quoting_unchanged; by rewrite Hs).
    rewrite Hu in Hf. injection Hf as <-. by split_and!.
Qed.

(** The output lines of a tame text read back as themselves. *)
Lemma output_reads_back text out :
  Forall tame (input_lines text) →
  patch_lines (input_lines text) = Ok out →
  input_lines (concat out) = out.
Proof.
  intros Htame. rewrite patch_lines_kept. intros H.
  apply mapM_result_Ok in H.
  destruct (readlines_shape_lemma text) as [Hok Hshape].
  assert (Forall (λ l, CR ∉ l) (input_lines text)) as Hcr.
  { apply lines_ok_no_cr. unfold input_lines.
    rewrite concat_split_lines. apply universal_newlines_no_cr. }
  apply (lines_ok_kept false) in Hok.
  apply (kept_lines_Forall _ false) in Htame, Hshape, Hcr.
  assert (Forall2 (λ l o, (full_line l → full_line o) ∧
                          (partial_line l → partial_line o))
            (kept_lines false (input_lines text)) out ∧
          Forall (λ o, CR ∉ o) out) as [Hsh Hcro].
  { clear Hok. induction H as [|l o kept out' Hlo _ IH];
      [split; constructor|].
    apply Forall_cons in Htame as [Htl Htame].
    apply Forall_cons in Hshape as [Hsl Hshape].
    apply Forall_cons in Hcr as [Hcl Hcr].
    destruct (IH Htame Hshape Hcr) as [IH1 IH2].
    destruct (fix_quoting_shape l o Hsl Htl Hlo) as (Hf & Hp & Hc).
    split; constructor; auto. }
  unfold input_lines. rewrite universal_newlines_id.
  - apply split_lines_concat. by eapply lines_ok_Forall2.
  - clear -Hcro. induction Hcro as [|o out' Ho _ IH]; simpl.
    + apply not_elem_of_nil.
    + rewrite elem_of_app. tauto.
Qed.

End RerunFacts.

(** X15: running the script on the [Makefile.ci] it has just written, for a
    text whose lines are all tame, writes the same [Makefile.ci] again: the
    second run succeeds and leaves every file as the first run left it. *)
Theorem rerun_on_output_is_stable prog prog' src fs text out :
  readable_text fs src = Some text →
  dst_openable fs = Some true →
  Forall tame (input_lines text) →
  patch_lines (input_lines text) = Ok out →
  let fs' := files (run [prog; src] fs).2 in
  file_text fs' dst_path = Some (concat out) ∧
  (run [prog'; dst_path] fs').1 = Ok () ∧
  files (run [prog'; dst_path] fs').2 = fs'.
Proof.
  intros Hr Hd Htame Hp.
  rewrite (run_ok _ _ _ _ _ _ Hr Hp Hd). cbn [snd files].
  set (fs' := <[dst_path:=Regular true true (Some (concat out))]> fs).
  assert (readable_text fs' dst_path = Some (concat out)) as Hr'
    by (unfold readable_text, fs'; by rewrite lookup_insert_eq).
  assert (dst_openable fs' = Some true) as Hd'
    by (unfold dst_openable, fs'; by rewrite lookup_insert_eq).
  assert (patch_lines (input_lines (concat out)) = Ok out) as Hp'.
  { rewrite (output_reads_back _ _ Htame Hp).
    by apply (patched_lines_stable_lemma text). }
  rewrite (run_ok prog' _ _ _ _ _ Hr' Hp' Hd'). cbn [fst snd files].
  split_and!; [by unfold fs'; rewrite file_text_insert|done|].
  unfold fs'. by rewrite insert_insert_eq.
Qed.

Lemma rerun_on_output_is_stable_witness :
  let fs : gmap str node :=
    {[ lit "Makefile" := Regular true true
         (Some (lit "all:" ++ [NL] ++ lit "        python -c print(1)" ++ [NL])) ]} in
  let fs' := files (run [lit "patch.py"; lit "Makefile"] fs).2 in
  files (run [lit "patch.py"; dst_path] fs').2 = fs'.
Proof.
  refine (proj2 (proj2 (rerun_on_output_is_stable
    (lit "patch.py") (lit "patch.py") (lit "Makefile")
    {[ lit "Makefile" := Regular true true
         (Some (lit "all:" ++ [NL] ++ lit "        python -c print(1)" ++ [NL])) ]}
    (lit "all:" ++ [NL] ++ lit "        python -c print(1)" ++ [NL])
    [lit "all:" ++ [NL];
     lit "        python -c " ++ [DQ] ++ lit "print(1)" ++ [DQ; NL]]
    _ _ _ _))).
  - vm_compute; reflexivity.
  - vm_compute; reflexivity.
  - replace (input_lines _) with
      [lit "all:" ++ [NL]; lit "        python -c print(1)" ++ [NL]]
      by (vm_compute; reflexivity).
    apply Forall_cons. split; [exact I|].
    apply Forall_cons. split; [|apply List.Forall_nil].
    right. right. split; [|vm_compute; reflexivity].
    vm_compute. intros H.
    repeat (apply elem_of_cons in H as [H|H]; [discriminate H|]).
    by apply elem_of_nil in H.
  - vm_compute; reflexivity.
Defined.
